(** * verydisco: schema-to-model synthesis (src/verydisco/schemas.py)

    A shallow embedding of [SchemaParser] and [write_models], and the
    properties of the specification settled against it.

    Conventions of the embedding.
    - A Python [str] is a [string]; characters are code points below 128.
    - A schema node is the Python [dict] decoded from JSON, seen through the
      keys the parser reads: "type", "$ref", "properties", "items",
      "description", "default" and "id".
    - [self.model_defs] is a Python [dict]: an association list in insertion
      order, where assigning to a key that is present replaces the value in
      place.
    - A raised exception is the [Raise] case of [result]. *)

From Stdlib Require Import String Ascii List Bool Arith ZArith Lia.
From Stdlib Require Import DecimalString.
Import ListNotations.
Open Scope string_scope.
Set Warnings "-register-all".

(** ** Python strings *)

Module PyStr.

Definition LF : string := String (ascii_of_nat 10) EmptyString.

(** [sep.join(parts)] *)
Fixpoint join (sep : string) (parts : list string) : string :=
  match parts with
  | [] => ""
  | [p] => p
  | p :: rest => p ++ sep ++ join sep rest
  end.

(** [s.split("\n")] as a list of lines: a trailing newline yields a last
    empty line. *)
Fixpoint split_lines_aux (cur : string) (s : string) : list string :=
  match s with
  | EmptyString => [cur]
  | String c r =>
      if Ascii.eqb c (ascii_of_nat 10)
      then cur :: split_lines_aux "" r
      else split_lines_aux (cur ++ String c EmptyString) r
  end.

Definition split_lines (s : string) : list string := split_lines_aux "" s.

Definition is_upper (c : ascii) : bool :=
  let n := nat_of_ascii c in ((65 <=? n) && (n <=? 90))%nat.

Definition is_lower (c : ascii) : bool :=
  let n := nat_of_ascii c in ((97 <=? n) && (n <=? 122))%nat.

Definition upper (c : ascii) : ascii :=
  if is_lower c then ascii_of_nat (nat_of_ascii c - 32) else c.

Definition lower (c : ascii) : ascii :=
  if is_upper c then ascii_of_nat (nat_of_ascii c + 32) else c.

Fixpoint map_chars (f : ascii -> ascii) (s : string) : string :=
  match s with
  | EmptyString => EmptyString
  | String c r => String (f c) (map_chars f r)
  end.

(** [s.capitalize()] *)
Definition capitalize (s : string) : string :=
  match s with
  | EmptyString => EmptyString
  | String c r => String (upper c) (map_chars lower r)
  end.

(** Truth value of a [str]: empty is false. *)
Definition truthy (s : string) : bool :=
  match s with EmptyString => false | _ => true end.

(** [s.endswith(t)] *)
Definition ends_with (t s : string) : bool :=
  let ls := String.length s in
  let lt := String.length t in
  (lt <=? ls)%nat && String.eqb (substring (ls - lt) lt s) t.

End PyStr.

(** ** Name sanitizer: [SchemaParser.valid_property_name] *)

(** [keyword.kwlist] (CPython 3.8, one of the interpreters of noxfile.py). *)
Definition kwlist : list string :=
  [ "False"; "None"; "True"; "and"; "as"; "assert"; "async"; "await";
    "break"; "class"; "continue"; "def"; "del"; "elif"; "else"; "except";
    "finally"; "for"; "from"; "global"; "if"; "import"; "in"; "is";
    "lambda"; "nonlocal"; "not"; "or"; "pass"; "raise"; "return"; "try";
    "while"; "with"; "yield" ].

(** [dir(builtins)] (CPython 3.8, with the names the [site] module adds). *)
Definition dir_builtins : list string :=
  [ "ArithmeticError"; "AssertionError"; "AttributeError"; "BaseException";
    "BlockingIOError"; "BrokenPipeError"; "BufferError"; "BytesWarning";
    "ChildProcessError"; "ConnectionAbortedError"; "ConnectionError";
    "ConnectionRefusedError"; "ConnectionResetError"; "DeprecationWarning";
    "EOFError"; "Ellipsis"; "EnvironmentError"; "Exception"; "False";
    "FileExistsError"; "FileNotFoundError"; "FloatingPointError";
    "FutureWarning"; "GeneratorExit"; "IOError"; "ImportError";
    "ImportWarning"; "IndentationError"; "IndexError"; "InterruptedError";
    "IsADirectoryError"; "KeyError"; "KeyboardInterrupt"; "LookupError";
    "MemoryError"; "ModuleNotFoundError"; "NameError"; "None";
    "NotADirectoryError"; "NotImplemented"; "NotImplementedError"; "OSError";
    "OverflowError"; "PendingDeprecationWarning"; "PermissionError";
    "ProcessLookupError"; "RecursionError"; "ReferenceError";
    "ResourceWarning"; "RuntimeError"; "RuntimeWarning";
    "StopAsyncIteration"; "StopIteration"; "SyntaxError"; "SyntaxWarning";
    "SystemError"; "SystemExit"; "TabError"; "TimeoutError"; "True";
    "TypeError"; "UnboundLocalError"; "UnicodeDecodeError";
    "UnicodeEncodeError"; "UnicodeError"; "UnicodeTranslateError";
    "UnicodeWarning"; "UserWarning"; "ValueError"; "Warning";
    "ZeroDivisionError"; "__build_class__"; "__debug__"; "__doc__";
    "__import__"; "__loader__"; "__name__"; "__package__"; "__spec__";
    "abs"; "all"; "any"; "ascii"; "bin"; "bool"; "breakpoint"; "bytearray";
    "bytes"; "callable"; "chr"; "classmethod"; "compile"; "complex";
    "copyright"; "credits"; "delattr"; "dict"; "dir"; "divmod"; "enumerate";
    "eval"; "exec"; "exit"; "filter"; "float"; "format"; "frozenset";
    "getattr"; "globals"; "hasattr"; "hash"; "help"; "hex"; "id"; "input";
    "int"; "isinstance"; "issubclass"; "iter"; "len"; "license"; "list";
    "locals"; "map"; "max"; "memoryview"; "min"; "next"; "object"; "oct";
    "open"; "ord"; "pow"; "print"; "property"; "quit"; "range"; "repr";
    "reversed"; "round"; "set"; "setattr"; "slice"; "sorted";
    "staticmethod"; "str"; "sum"; "super"; "tuple"; "type"; "vars"; "zip" ].

(** [python_keywords = set(keyword.kwlist) | set(dir(builtins))] *)
Definition python_keywords : list string := kwlist ++ dir_builtins.

Definition in_python_keywords (name : string) : bool :=
  existsb (String.eqb name) python_keywords.

Definition valid_property_name (name : string) : string :=
  if in_python_keywords name then name ++ "_" else name.

(** ** The standard library's [textwrap.TextWrapper]

    [format_docstring] calls [textwrap.TextWrapper(subsequent_indent=indent)
    .fill(text)]; every other option keeps its default: [width=70],
    an empty [initial_indent], [expand_tabs], [replace_whitespace],
    [drop_whitespace], [break_long_words], [break_on_hyphens], [tabsize=8],
    no [max_lines]. The functions below follow Lib/textwrap.py. *)

Module TextWrap.

Definition chunk := list ascii.

Definition code (c : ascii) : nat := nat_of_ascii c.

Definition SP : ascii := ascii_of_nat 32.
Definition HYPHEN : ascii := ascii_of_nat 45.

(** [_whitespace = '\t\n\x0b\x0c\r '] *)
Definition is_ws (c : ascii) : bool :=
  let n := code c in (((9 <=? n) && (n <=? 13)) || (n =? 32))%nat.

(** [str.isspace] on one character (used through [chunk.strip()]). *)
Definition is_space (c : ascii) : bool :=
  let n := code c in
  (((9 <=? n) && (n <=? 13)) || ((28 <=? n) && (n <=? 32)))%nat.

Definition is_digit (c : ascii) : bool :=
  let n := code c in ((48 <=? n) && (n <=? 57))%nat.

(** [\w] *)
Definition is_word (c : ascii) : bool :=
  PyStr.is_upper c || PyStr.is_lower c || is_digit c || (code c =? 95)%nat.

(** [letter = [^\d\W]] *)
Definition is_letter (c : ascii) : bool := is_word c && negb (is_digit c).

(** [word_punct]: a word character or one of ! & . , ? or a quote mark
    (single or double). *)
Definition is_word_punct (c : ascii) : bool :=
  is_word c ||
  existsb (Nat.eqb (code c)) [33; 34; 39; 38; 46; 44; 63]%nat.

Definition is_hyphen (c : ascii) : bool := (code c =? 45)%nat.

(** [str.expandtabs(8)] *)
Fixpoint expandtabs (col : nat) (s : list ascii) : list ascii :=
  match s with
  | [] => []
  | c :: r =>
      if (code c =? 9)%nat then
        let incr := 8 - col mod 8 in
        (repeat SP incr ++ expandtabs (col + incr) r)%list
      else if ((code c =? 10) || (code c =? 13))%nat then
        c :: expandtabs 0 r
      else c :: expandtabs (col + 1) r
  end.

(** [_munge_whitespace]: expand tabs, then turn each whitespace character
    into a space. *)
Definition munge_whitespace (s : list ascii) : list ascii :=
  map (fun c => if is_ws c then SP else c) (expandtabs 0 s).

(** Number of leading hyphens and what follows them. *)
Fixpoint hyphen_run (s : list ascii) : nat * list ascii :=
  match s with
  | c :: r =>
      if is_hyphen c then let '(k, r') := hyphen_run r in (S k, r')
      else (0, s)
  | [] => (0, [])
  end.

(** [-{2,}] followed by [\w] starts here. *)
Definition emdash_ahead (s : list ascii) : bool :=
  let '(k, r) := hyphen_run s in
  (2 <=? k)%nat && match r with c :: _ => is_word c | [] => false end.

Definition last_is (p : ascii -> bool) (before : list ascii) : bool :=
  match before with c :: _ => p c | [] => false end.

(** The hyphenated-word break of [wordsep_re]: the next character is a
    hyphen, preceded by two letters or by letter-hyphen-letter, and followed
    by a letter, an optional hyphen and a letter. [before] holds the text
    already read, last character first. *)
Definition hyphen_break (before rest : list ascii) : bool :=
  match rest with
  | h :: after =>
      is_hyphen h &&
      match before with
      | x1 :: x2 :: more =>
          is_letter x1 &&
          (is_letter x2 ||
           (is_hyphen x2 && last_is is_letter more))
      | _ => false
      end &&
      match after with
      | a :: b :: more =>
          is_letter a &&
          (is_letter b || (is_hyphen b && last_is is_letter more))
      | _ => false
      end
  | [] => false
  end.

Inductive mode := Ws | Dash | Word | Hyph.

(** Which alternative of [wordsep_re] matches at the start of a chunk. *)
Definition start_mode (before rest : list ascii) : mode :=
  match rest with
  | c :: _ =>
      if is_ws c then Ws
      else if last_is is_word_punct before && emdash_ahead rest then Dash
      else Word
  | [] => Word
  end.

(** [wordsep_re.split(text)] without the empty strings: [before] is the text
    read so far and [cur] the chunk being read, both last character first. *)
Fixpoint split_go (before cur : list ascii) (m : mode) (rest : list ascii)
  : list chunk :=
  match rest with
  | [] => match cur with [] => [] | _ => [rev cur] end
  | c :: r =>
      let before' := c :: before in
      let cur' := c :: cur in
      (* [Some m]: the chunk goes on in mode [m]; [None]: it ends here. *)
      let next :=
        match m with
        | Ws => if last_is is_ws r then Some Ws else None
        | Dash => if last_is is_hyphen r then Some Dash else None
        | Hyph => None
        | Word =>
            if hyphen_break before' r then Some Hyph
            else match r with
                 | [] => None
                 | d :: _ =>
                     if is_ws d then None
                     else if is_word_punct c && emdash_ahead r then None
                     else Some Word
                 end
        end in
      match next with
      | Some m' => split_go before' cur' m' r
      | None => rev cur' :: split_go before' [] (start_mode before' r) r
      end
  end.

Definition split (text : list ascii) : list chunk :=
  split_go [] [] (start_mode [] text) text.

Definition len (c : chunk) : Z := Z.of_nat (length c).

(** [chunk.strip()] is empty. *)
Definition blank (c : chunk) : bool := forallb is_space c.

(** The inner loop of [_wrap_chunks]: move chunks to the current line while
    they fit. [cur_line] is last chunk first. *)
Fixpoint take_fitting (width cur_len : Z) (cur_line chunks : list chunk)
  : list chunk * Z * list chunk :=
  match chunks with
  | [] => (cur_line, cur_len, [])
  | ch :: rest =>
      if (cur_len + len ch <=? width)%Z
      then take_fitting width (cur_len + len ch) (ch :: cur_line) rest
      else (cur_line, cur_len, chunks)
  end.

(** [_handle_long_word] with [break_long_words]. *)
Definition handle_long_word (width cur_len : Z) (cur_line : list chunk)
    (ch : chunk) (rest : list chunk) : list chunk * list chunk :=
  let space_left := if (width <? 1)%Z then 1%Z else (width - cur_len)%Z in
  let n := Z.to_nat space_left in
  (firstn n ch :: cur_line, skipn n ch :: rest).

Definition WIDTH : Z := 70.

(** [_wrap_chunks]; [lines] is last line first. Each round removes a chunk
    or shortens one, so [fuel] rounds, with [fuel] above the size of the
    text, reach the end of the chunks. *)
Fixpoint wrap_chunks (fuel : nat) (initial_indent subsequent_indent : chunk)
    (lines : list chunk) (chunks : list chunk) : list chunk :=
  match fuel with
  | O => rev lines
  | S fuel' =>
      match chunks with
      | [] => rev lines
      | first :: others =>
          let has_lines := match lines with [] => false | _ => true end in
          let indent :=
            if has_lines then subsequent_indent else initial_indent in
          let width := (WIDTH - len indent)%Z in
          let chunks1 := if blank first && has_lines then others else chunks in
          let '(cur_line, cur_len, chunks2) :=
            take_fitting width 0 [] chunks1 in
          let '(cur_line2, chunks3) :=
            match chunks2 with
            | ch :: rest =>
                if (width <? len ch)%Z
                then handle_long_word width cur_len cur_line ch rest
                else (cur_line, chunks2)
            | [] => (cur_line, chunks2)
            end in
          let cur_line3 :=
            match cur_line2 with
            | last :: earlier => if blank last then earlier else cur_line2
            | [] => []
            end in
          let lines' :=
            match cur_line3 with
            | [] => lines
            | _ => (indent ++ concat (rev cur_line3))%list :: lines
            end in
          wrap_chunks fuel' initial_indent subsequent_indent lines' chunks3
      end
  end.

(** [TextWrapper(subsequent_indent=indent).wrap(text)] *)
Definition wrap (subsequent_indent text : string) : list string :=
  let chars := munge_whitespace (list_ascii_of_string text) in
  map string_of_list_ascii
    (wrap_chunks (2 * length chars + 2) []
       (list_ascii_of_string subsequent_indent) [] (split chars)).

(** [TextWrapper(subsequent_indent=indent).fill(text)] *)
Definition fill (subsequent_indent text : string) : string :=
  PyStr.join PyStr.LF (wrap subsequent_indent text).

End TextWrap.

(** ** Docstring formatter: [SchemaParser.format_docstring] *)

Definition DQUOTE : string := String (ascii_of_nat 34) EmptyString.

(** The delimiter of a docstring: three double quotes. *)
Definition TRIPLE : string := DQUOTE ++ DQUOTE ++ DQUOTE.

Definition max_line_length : nat := 80.

Definition format_docstring (text indent : string) : string :=
  if PyStr.truthy text then
    let result := TextWrap.fill indent text in
    let result := indent ++ TRIPLE ++ result in
    if (max_line_length - String.length TRIPLE <? String.length result)%nat
    then result ++ PyStr.LF ++ indent ++ TRIPLE ++ PyStr.LF
    else result ++ TRIPLE ++ PyStr.LF
  else "".

(** ** Values and [repr]

    A "default" in a schema is a JSON value; [parse_property] renders it
    with [repr]. The values covered are [None], booleans, integers and
    strings. *)

Inductive pyvalue :=
  | PyNone
  | PyBool (b : bool)
  | PyInt (z : Z)
  | PyStr (s : string).

Module PyRepr.

Definition SQUOTE : ascii := ascii_of_nat 39.
Definition BACKSLASH : ascii := ascii_of_nat 92.

Definition hex_digit (n : nat) : ascii :=
  if (n <? 10)%nat then ascii_of_nat (48 + n) else ascii_of_nat (87 + n).

Fixpoint contains (c : ascii) (s : string) : bool :=
  match s with
  | EmptyString => false
  | String d r => Ascii.eqb c d || contains c r
  end.

(** The quote [repr] encloses a string in: a double quote when the string
    holds a single quote and no double quote, else a single quote. *)
Definition quote_of (s : string) : ascii :=
  if contains SQUOTE s && negb (contains (ascii_of_nat 34) s)
  then ascii_of_nat 34 else SQUOTE.

Definition escape_char (quote c : ascii) : string :=
  let n := nat_of_ascii c in
  if Ascii.eqb c quote || Ascii.eqb c BACKSLASH
  then String BACKSLASH (String c EmptyString)
  else if (n =? 9)%nat then String BACKSLASH "t"
  else if (n =? 10)%nat then String BACKSLASH "n"
  else if (n =? 13)%nat then String BACKSLASH "r"
  else if ((n <? 32) || (n =? 127))%nat
  then String BACKSLASH
         (String "x" (String (hex_digit (n / 16))
                        (String (hex_digit (n mod 16)) EmptyString)))
  else String c EmptyString.

Fixpoint escape (quote : ascii) (s : string) : string :=
  match s with
  | EmptyString => EmptyString
  | String c r => escape_char quote c ++ escape quote r
  end.

Definition repr_str (s : string) : string :=
  let q := quote_of s in
  String q (escape q s) ++ String q EmptyString.

Definition repr_int (z : Z) : string := NilZero.string_of_int (Z.to_int z).

(** [repr(value)] *)
Definition repr (v : pyvalue) : string :=
  match v with
  | PyNone => "None"
  | PyBool true => "True"
  | PyBool false => "False"
  | PyInt z => repr_int z
  | PyStr s => repr_str s
  end.

End PyRepr.

(** ** Schema nodes *)

Inductive schema : Type :=
  mkSchema (s_type : option string)
           (s_ref : option string)
           (s_properties : option (list (string * schema)))
           (s_items : option schema)
           (s_description : option string)
           (s_default : option pyvalue)
           (s_id : option string).

Definition s_type (s : schema) := let (x, _, _, _, _, _, _) := s in x.
Definition s_ref (s : schema) := let (_, x, _, _, _, _, _) := s in x.
Definition s_properties (s : schema) := let (_, _, x, _, _, _, _) := s in x.
Definition s_items (s : schema) := let (_, _, _, x, _, _, _) := s in x.
Definition s_description (s : schema) := let (_, _, _, _, x, _, _) := s in x.
Definition s_default (s : schema) := let (_, _, _, _, _, x, _) := s in x.
Definition s_id (s : schema) := let (_, _, _, _, _, _, x) := s in x.

(** ** Exceptions *)

Inductive exn := KeyError (key : string).

Inductive result (A : Type) :=
  | Ok (a : A)
  | Raise (e : exn).

Arguments Ok {A} a.
Arguments Raise {A} e.

(** ** The registry [self.model_defs] *)

Definition model_defs := list (string * string).

Module Dict.

Fixpoint get (k : string) (d : model_defs) : option string :=
  match d with
  | [] => None
  | (k', v) :: rest => if String.eqb k k' then Some v else get k rest
  end.

Definition mem (k : string) (d : model_defs) : bool :=
  match get k d with Some _ => true | None => false end.

(** [d[k] = v] *)
Fixpoint set (k v : string) (d : model_defs) : model_defs :=
  match d with
  | [] => [(k, v)]
  | (k', v') :: rest =>
      if String.eqb k k' then (k, v) :: rest else (k', v') :: set k v rest
  end.

Definition keys (d : model_defs) : list string := map fst d.
Definition values (d : model_defs) : list string := map snd d.

End Dict.

(** ** The parser *)

Definition simple_types (type_ : string) : option string :=
  if String.eqb type_ "any" then Some "Any"
  else if String.eqb type_ "boolean" then Some "bool"
  else if String.eqb type_ "integer" then Some "int"
  else if String.eqb type_ "null" then Some "None"
  else if String.eqb type_ "number" then Some "float"
  else if String.eqb type_ "string" then Some "str"
  else None.

(** A property of a class: [(name, type_, default)]. *)
Definition property := (string * string * option string)%type.

Definition INDENT : string := "    ".

(** [f'"{name}"'] *)
Definition quoted (name : string) : string := DQUOTE ++ name ++ DQUOTE.

(** The lookup that opens [parse_property]:
    [try: type_ = schema["type"] except KeyError: type_ = schema["$ref"]]. *)
Definition lookup_type (ty rf : option string) : result string :=
  match ty with
  | Some t => Ok t
  | None => match rf with
            | Some r => Ok r
            | None => Raise (KeyError "$ref")
            end
  end.

(** [default = schema.get("default")], rendered when it is not [None]. *)
Definition render_default (d : option pyvalue) : option string :=
  match d with
  | None => None
  | Some PyNone => None
  | Some v => Some (PyRepr.repr v)
  end.

(** The line of a property in the class body. *)
Definition property_line (p : property) : string :=
  let '(name, type_, default) := p in
  let line :=
    match default with
    | Some d => if PyStr.truthy d then name ++ ": " ++ type_ ++ " = " ++ d
                else name ++ ": " ++ type_
    | None => name ++ ": " ++ type_
    end in
  INDENT ++ line ++ PyStr.LF.

Definition property_name (p : property) : string := fst (fst p).

(** The name of the class: the schema's "id", else [class_name], else a
    name made up from the properties. *)
Definition class_id (id_ class_name : option string)
    (properties : list property) : string :=
  let made_up :=
    "_" ++ PyStr.join "" (map (fun p => PyStr.capitalize (property_name p))
                               properties) in
  let from_class_name :=
    match class_name with
    | Some c => if PyStr.truthy c then c else made_up
    | None => made_up
    end in
  match id_ with
  | Some i => if PyStr.truthy i then i else from_class_name
  | None => from_class_name
  end.

(** The text of the class (lines 103 to 115 of [schema_as_string]). *)
Definition class_text (id_ : string) (description : option string)
    (properties : list property) : string :=
  let docstring :=
    format_docstring (match description with Some t => t | None => "" end)
                     INDENT in
  let result :=
    "class " ++ id_ ++ "(pydantic.BaseModel):" ++ PyStr.LF ++ docstring in
  let result := result ++ PyStr.join "" (map property_line properties) in
  match properties with
  | [] => if PyStr.truthy docstring then result
          else result ++ INDENT ++ "pass" ++ PyStr.LF
  | _ => result
  end.

(** What [schema_as_string] does once the properties are parsed: name the
    class, build its text and store it in the registry. *)
Definition emit_class (id_ class_name description : option string)
    (properties : list property) (defs : model_defs) : model_defs :=
  let name := class_id id_ class_name properties in
  Dict.set name (class_text name description properties) defs.

(** [SchemaParser.parse_property]. The "object" case runs
    [schema_as_string] on the same node: its loop over the properties is the
    inner [fix]. *)
Fixpoint parse_property (s : schema) (name : string) (defs : model_defs)
  : result (string * option string * model_defs) :=
  match s with
  | mkSchema ty rf props items description default id_ =>
      match lookup_type ty rf with
      | Raise e => Raise e
      | Ok type_ =>
          match simple_types type_ with
          | Some py_type => Ok (py_type, render_default default, defs)
          | None =>
              if String.eqb type_ "object" then
                let class_name := "_" ++ name in
                let done properties defs' :=
                  Ok (quoted class_name, None,
                      emit_class id_ (Some class_name) description
                                 properties defs') in
                match props with
                | None => done [] defs
                | Some plist =>
                    (fix loop (ps : list (string * schema))
                         (properties : list property) (defs0 : model_defs)
                       : result (string * option string * model_defs) :=
                       match ps with
                       | [] => done properties defs0
                       | (pname, pschema) :: rest =>
                           let pname := valid_property_name pname in
                           match parse_property pschema pname defs0 with
                           | Raise e => Raise e
                           | Ok (prop_type, pdefault, defs1) =>
                               loop rest
                                 (properties ++ [(pname, prop_type, pdefault)])%list
                                 defs1
                           end
                       end) plist [] defs
                end
              else if String.eqb type_ "array" then
                match items with
                | None => Raise (KeyError "items")
                | Some item =>
                    match parse_property item name defs with
                    | Raise e => Raise e
                    | Ok (py_type, default', defs') =>
                        Ok ("List[" ++ py_type ++ "]", default', defs')
                    end
                end
              else Ok (quoted type_, None, defs)
          end
      end
  end.

(** The loop of [schema_as_string] over [schema["properties"].items()]. *)
Fixpoint parse_properties (ps : list (string * schema))
    (properties : list property) (defs : model_defs)
  : result (list property * model_defs) :=
  match ps with
  | [] => Ok (properties, defs)
  | (pname, pschema) :: rest =>
      let pname := valid_property_name pname in
      match parse_property pschema pname defs with
      | Raise e => Raise e
      | Ok (prop_type, pdefault, defs1) =>
          parse_properties rest
            (properties ++ [(pname, prop_type, pdefault)])%list defs1
      end
  end.

Definition properties_of (s : schema) : list (string * schema) :=
  match s_properties s with Some plist => plist | None => [] end.

(** [SchemaParser.schema_as_string] *)
Definition schema_as_string (s : schema) (class_name : option string)
    (defs : model_defs) : result model_defs :=
  match parse_properties (properties_of s) [] defs with
  | Raise e => Raise e
  | Ok (properties, defs') =>
      Ok (emit_class (s_id s) class_name (s_description s) properties defs')
  end.

(** The loop of [SchemaParser.__init__]. *)
Fixpoint parse_schemas (schemas : list (string * schema)) (defs : model_defs)
  : result model_defs :=
  match schemas with
  | [] => Ok defs
  | (name, s) :: rest =>
      match schema_as_string s (Some name) defs with
      | Raise e => Raise e
      | Ok defs' => parse_schemas rest defs'
      end
  end.

(** [SchemaParser(schemas).model_defs] *)
Definition SchemaParser (schemas : list (string * schema))
  : result model_defs :=
  parse_schemas schemas [].

(** [write_models(schemas, fh)]: the text of [fh] afterwards, and the
    exception that escaped, if any. *)
Definition write_models (schemas : list (string * schema)) (fh : string)
  : string * option exn :=
  match SchemaParser schemas with
  | Raise e => (fh, Some e)
  | Ok defs =>
      (fh ++ PyStr.join (PyStr.LF ++ PyStr.LF) (Dict.values defs), None)
  end.

(** ** Schema nodes of the examples *)

Module Node.

(** [{"type": t}] *)
Definition typed (t : string) : schema :=
  mkSchema (Some t) None None None None None None.

(** [{"type": t, "default": d}] *)
Definition typed_default (t : string) (d : pyvalue) : schema :=
  mkSchema (Some t) None None None None (Some d) None.

(** [{"$ref": r}] *)
Definition ref (r : string) : schema :=
  mkSchema None (Some r) None None None None None.

(** [{"type": "object", "properties": props}] *)
Definition object (props : list (string * schema)) : schema :=
  mkSchema (Some "object") None (Some props) None None None None.

(** [{"type": "object", "properties": props, "id": i}] *)
Definition object_id (i : string) (props : list (string * schema)) : schema :=
  mkSchema (Some "object") None (Some props) None None None (Some i).

(** [{"type": "object", "properties": props, "description": text}] *)
Definition object_described (text : string) (props : list (string * schema))
  : schema :=
  mkSchema (Some "object") None (Some props) None (Some text) None None.

(** [{"type": "array", "items": item}] *)
Definition array (item : schema) : schema :=
  mkSchema (Some "array") None None (Some item) None None None.

(** [{}] *)
Definition empty : schema :=
  mkSchema None None None None None None None.

End Node.

(** ** Notions the properties are stated with *)

(** The primitive mapping as the specification lists it. *)
Definition primitive_mapping : list (string * string) :=
  [ ("boolean", "bool"); ("integer", "int"); ("string", "str");
    ("number", "float"); ("null", "None"); ("any", "Any") ].

(** The type a node is resolved by: its "type", else its "$ref". *)
Definition type_of (s : schema) : result string :=
  lookup_type (s_type s) (s_ref s).

(** A node carries no type information: neither "type" nor "$ref". *)
Definition untyped (s : schema) : Prop := s_type s = None /\ s_ref s = None.

(** A node is resolved without touching the registry: its type is one of
    the simple types. *)
Definition simple_node (s : schema) : Prop :=
  exists type_ py_type,
    type_of s = Ok type_ /\ simple_types type_ = Some py_type.

(** [visits s n]: resolving the field node [s] resolves the node [n], which
    is [s] itself, or under the items of an array, or under a property of an
    object. *)
Inductive visits : schema -> schema -> Prop :=
  | visits_here (s : schema) : visits s s
  | visits_items (s item n : schema) :
      type_of s = Ok "array" -> s_items s = Some item ->
      visits item n -> visits s n
  | visits_property (s : schema) (plist : list (string * schema))
      (pname : string) (p n : schema) :
      type_of s = Ok "object" -> s_properties s = Some plist ->
      In (pname, p) plist -> visits p n -> visits s n.

(** A text ends with a newline. *)
Definition ends_with_newline (text : string) : Prop :=
  exists body, text = body ++ PyStr.LF.

(** The lengths of the runs of empty lines that stand between two non-empty
    lines. [run] counts the empty lines since the last non-empty line, and
    [inside] tells whether a non-empty line was seen. *)
Fixpoint blank_runs_aux (inside : bool) (run : nat) (lines : list string)
  : list nat :=
  match lines with
  | [] => []
  | l :: rest =>
      if PyStr.truthy l then
        if inside && negb (run =? 0)%nat
        then run :: blank_runs_aux true 0 rest
        else blank_runs_aux true 0 rest
      else blank_runs_aux inside (S run) rest
  end.

Definition blank_runs (text : string) : list nat :=
  blank_runs_aux false 0 (PyStr.split_lines text).


(** A node on which the resolution fails: it has no type information, or it
    is an array without "items". *)
Definition broken_node (s : schema) : Prop :=
  untyped s \/ (type_of s = Ok "array" /\ s_items s = None).

(** The type expressions [parse_property] builds: a primitive, a quoted
    name, or the list of a type expression. *)
Inductive type_expr : string -> Prop :=
  | type_expr_simple (type_ py_type : string) :
      simple_types type_ = Some py_type -> type_expr py_type
  | type_expr_named (name : string) : type_expr (quoted name)
  | type_expr_list (t : string) :
      type_expr t -> type_expr ("List[" ++ t ++ "]").

(** The first line of the class text of the name [k]. *)
Definition class_header (k : string) : string :=
  "class " ++ k ++ "(pydantic.BaseModel):" ++ PyStr.LF.

(** An entry of the registry defines the class it is stored under. *)
Definition defines (entry : string * string) : Prop :=
  exists body, snd entry = class_header (fst entry) ++ body /\ body <> "".

(** ** The assignments to the registry

    The build seen through the assignments [self.model_defs[id_] = result]
    it makes: [resolve] is [parse_property] with the registry left out; it
    returns, with the type and the default, the assignments of the
    resolution as pairs of a name and a class text, in the order they are
    made. *)

Definition assignments := list (string * string).

(** The registry after the assignments are made on [defs], in order. *)
Definition replay (log : assignments) (defs : model_defs) : model_defs :=
  fold_left (fun d kv => Dict.set (fst kv) (snd kv) d) log defs.

(** The text assigned last to [name], if any. *)
Fixpoint last_assigned (name : string) (log : assignments) : option string :=
  match log with
  | [] => None
  | (k, v) :: rest =>
      match last_assigned name rest with
      | Some v' => Some v'
      | None => if String.eqb name k then Some v else None
      end
  end.

(** The assignment that ends [schema_as_string]. *)
Definition class_assignment (id_ class_name description : option string)
    (properties : list property) : string * string :=
  let name := class_id id_ class_name properties in
  (name, class_text name description properties).

Fixpoint resolve (s : schema) (name : string)
  : result (string * option string * assignments) :=
  match s with
  | mkSchema ty rf props items description default id_ =>
      match lookup_type ty rf with
      | Raise e => Raise e
      | Ok type_ =>
          match simple_types type_ with
          | Some py_type => Ok (py_type, render_default default, [])
          | None =>
              if String.eqb type_ "object" then
                let class_name := "_" ++ name in
                let done properties log :=
                  Ok (quoted class_name, None,
                      (log ++ [class_assignment id_ (Some class_name)
                                                description properties])%list)
                in
                match props with
                | None => done [] []
                | Some plist =>
                    (fix loop (ps : list (string * schema))
                         (properties : list property) (log : assignments)
                       : result (string * option string * assignments) :=
                       match ps with
                       | [] => done properties log
                       | (pname, pschema) :: rest =>
                           let pname := valid_property_name pname in
                           match resolve pschema pname with
                           | Raise e => Raise e
                           | Ok (prop_type, pdefault, log1) =>
                               loop rest
                                 (properties ++ [(pname, prop_type, pdefault)])%list
                                 (log ++ log1)%list
                           end
                       end) plist [] []
                end
              else if String.eqb type_ "array" then
                match items with
                | None => Raise (KeyError "items")
                | Some item =>
                    match resolve item name with
                    | Raise e => Raise e
                    | Ok (py_type, default', log) =>
                        Ok ("List[" ++ py_type ++ "]", default', log)
                    end
                end
              else Ok (quoted type_, None, [])
          end
      end
  end.

(** The assignments of the loop over the properties. *)
Fixpoint resolve_properties (ps : list (string * schema))
    (properties : list property) (log : assignments)
  : result (list property * assignments) :=
  match ps with
  | [] => Ok (properties, log)
  | (pname, pschema) :: rest =>
      let pname := valid_property_name pname in
      match resolve pschema pname with
      | Raise e => Raise e
      | Ok (prop_type, pdefault, log1) =>
          resolve_properties rest
            (properties ++ [(pname, prop_type, pdefault)])%list
            (log ++ log1)%list
      end
  end.

(** The assignments of [schema_as_string]: those of the properties, then
    the one of the class itself. *)
Definition schema_assignments (s : schema) (class_name : option string)
  : result assignments :=
  match resolve_properties (properties_of s) [] [] with
  | Raise e => Raise e
  | Ok (properties, log) =>
      Ok (log ++ [class_assignment (s_id s) class_name (s_description s)
                                   properties])%list
  end.

(** The assignments of [SchemaParser.__init__] on a document. *)
Fixpoint document_assignments (schemas : list (string * schema))
  : result assignments :=
  match schemas with
  | [] => Ok []
  | (name, s) :: rest =>
      match schema_assignments s (Some name) with
      | Raise e => Raise e
      | Ok log =>
          match document_assignments rest with
          | Raise e => Raise e
          | Ok log' => Ok (log ++ log')%list
          end
      end
  end.

(** [parse_property] on a registry is [resolve] followed by its
    assignments on that registry. *)
Definition replays (s : schema) : Prop :=
  forall name defs,
    parse_property s name defs
    = match resolve s name with
      | Raise e => Raise e
      | Ok (type_, default, log) => Ok (type_, default, replay log defs)
      end.

(** ** The ends of a text *)

Definition NEWLINE : ascii := ascii_of_nat 10.

(** The text ends with a character that is not a newline. *)
Definition ends_without_newline (text : string) : Prop :=
  exists body c, text = body ++ String c "" /\ c <> NEWLINE.

(** The text ends with one newline, and only one. *)
Definition ends_with_one_newline (text : string) : Prop :=
  exists body, text = body ++ PyStr.LF /\ ends_without_newline body.

(** The text starts with a character that is not a newline. *)
Definition starts_without_newline (text : string) : Prop :=
  exists c rest, text = String c rest /\ c <> NEWLINE.

(** A property whose line in the class body ends with one newline: its
    type, and its default when there is one, end with a character that is
    not a newline. *)
Definition closed_property (p : property) : Prop :=
  ends_without_newline (snd (fst p))
  /\ (forall d, snd p = Some d -> d <> "" -> ends_without_newline d).

(** A text that can be told from its neighbours when texts are joined: it
    starts with a character that is not a newline and ends with one
    newline. *)
Definition separable (text : string) : Prop :=
  ends_with_one_newline text /\ starts_without_newline text.

(** * Properties *)

(** ** Strings *)

Module StrFacts.

Lemma length_app (a b : string) :
  String.length (a ++ b) = String.length a + String.length b.
Proof. induction a as [|c a IH]; simpl; [reflexivity | now rewrite IH]. Qed.

Lemma app_assoc (a b c : string) : (a ++ b) ++ c = a ++ (b ++ c).
Proof. induction a as [|x a IH]; simpl; [reflexivity | now rewrite IH]. Qed.

Lemma app_empty_r (a : string) : a ++ "" = a.
Proof. induction a as [|x a IH]; simpl; [reflexivity | now rewrite IH]. Qed.

End StrFacts.

(** ** The registry *)

Module DictFacts.

Lemma get_set_same (k v : string) (d : model_defs) :
  Dict.get k (Dict.set k v d) = Some v.
Proof.
  induction d as [|[k' v'] d IH]; simpl.
  - now rewrite String.eqb_refl.
  - destruct (String.eqb k k') eqn:E; simpl.
    + now rewrite String.eqb_refl.
    + now rewrite E.
Qed.

Lemma get_set_other (k k0 v : string) (d : model_defs) :
  k0 <> k -> Dict.get k0 (Dict.set k v d) = Dict.get k0 d.
Proof.
  intros Hne. induction d as [|[k' v'] d IH]; simpl.
  - destruct (String.eqb k0 k) eqn:E; [|reflexivity].
    apply String.eqb_eq in E. contradiction.
  - destruct (String.eqb k k') eqn:E; simpl.
    + apply String.eqb_eq in E. subst k'.
      destruct (String.eqb k0 k) eqn:E0; [|reflexivity].
      apply String.eqb_eq in E0. contradiction.
    + now rewrite IH.
Qed.

Lemma get_none_not_in (k : string) (d : model_defs) :
  Dict.get k d = None <-> ~ In k (Dict.keys d).
Proof.
  induction d as [|[k' v'] d IH]; simpl.
  - tauto.
  - destruct (String.eqb k k') eqn:E.
    + apply String.eqb_eq in E. subst. split; [discriminate|tauto].
    + apply String.eqb_neq in E. rewrite IH. split.
      * intros H [H1|H1]; [congruence|tauto].
      * tauto.
Qed.

(** Assigning to a key that is present keeps the keys and their order. *)
Lemma keys_set_present (k v : string) (d : model_defs) :
  Dict.mem k d = true -> Dict.keys (Dict.set k v d) = Dict.keys d.
Proof.
  unfold Dict.mem. induction d as [|[k' v'] d IH]; simpl.
  - discriminate.
  - destruct (String.eqb k k') eqn:E; simpl.
    + apply String.eqb_eq in E. now subst.
    + intros H. now rewrite IH.
Qed.

(** Assigning to a new key appends it. *)
Lemma set_absent (k v : string) (d : model_defs) :
  Dict.mem k d = false -> Dict.set k v d = (d ++ [(k, v)])%list.
Proof.
  unfold Dict.mem. induction d as [|[k' v'] d IH]; simpl.
  - reflexivity.
  - destruct (String.eqb k k') eqn:E; simpl.
    + discriminate.
    + intros H. now rewrite IH.
Qed.

Lemma in_keys_set (k k0 v : string) (d : model_defs) :
  In k0 (Dict.keys (Dict.set k v d)) <-> k0 = k \/ In k0 (Dict.keys d).
Proof.
  induction d as [|[k' v'] d IH]; simpl.
  - intuition.
  - destruct (String.eqb k k') eqn:E; simpl.
    + apply String.eqb_eq in E. subst k'. intuition.
    + rewrite IH. intuition.
Qed.

Lemma nodup_set (k v : string) (d : model_defs) :
  NoDup (Dict.keys d) -> NoDup (Dict.keys (Dict.set k v d)).
Proof.
  induction d as [|[k' v'] d IH]; simpl; intros H.
  - constructor; [simpl; tauto | constructor].
  - inversion H as [|? ? Hn Hd]; subst.
    destruct (String.eqb k k') eqn:E; simpl.
    + apply String.eqb_eq in E. subst k'. now constructor.
    + apply String.eqb_neq in E. constructor; [|now apply IH].
      rewrite in_keys_set. intros [H1|H1]; [congruence|contradiction].
Qed.

Lemma count_occ_nodup (k : string) (l : list string) :
  NoDup l -> In k l -> count_occ string_dec l k = 1.
Proof.
  intros Hnd Hin.
  pose proof (proj1 (NoDup_count_occ string_dec l) Hnd k) as Hle.
  pose proof (proj1 (count_occ_In string_dec l k) Hin) as Hge.
  lia.
Qed.

End DictFacts.

(** ** The name sanitizer *)

Lemma in_python_keywords_In (name : string) :
  in_python_keywords name = true -> In name python_keywords.
Proof.
  unfold in_python_keywords. intros H.
  apply existsb_exists in H. destruct H as [k [Hin Heq]].
  apply String.eqb_eq in Heq. now subst.
Qed.

(** No reserved name followed by the marker is itself reserved. *)
Lemma suffixed_not_reserved (name : string) :
  in_python_keywords name = true -> in_python_keywords (name ++ "_") = false.
Proof.
  intros H. apply in_python_keywords_In in H.
  assert (Hall : forallb (fun k => negb (in_python_keywords (k ++ "_")))
                         python_keywords = true) by (vm_compute; reflexivity).
  rewrite forallb_forall in Hall. specialize (Hall name H).
  now apply negb_true_iff in Hall.
Qed.

(** C6, as amended: the name sanitizer is idempotent. Sanitizing a reserved
    or builtin name once gives the name with one trailing marker, which is
    not reserved, so a second application returns it unchanged. *)
Theorem valid_property_name_idempotent (name : string) :
  valid_property_name (valid_property_name name) = valid_property_name name.
Proof.
  unfold valid_property_name.
  destruct (in_python_keywords name) eqn:E.
  - now rewrite (suffixed_not_reserved name E).
  - now rewrite E.
Qed.

(** C6, refuted as stated: there is no reserved or builtin name whose
    sanitized form gains a further trailing marker when sanitized again. *)
Lemma valid_property_name_never_appends_twice :
  ~ exists name : string,
      in_python_keywords name = true /\
      valid_property_name (valid_property_name name)
      = valid_property_name name ++ "_".
Proof.
  intros [name [Hres Heq]].
  unfold valid_property_name in Heq. rewrite Hres in Heq.
  rewrite (suffixed_not_reserved name Hres) in Heq.
  assert (Hlen : String.length (name ++ "_")
                 = String.length ((name ++ "_") ++ "_")) by now rewrite <- Heq.
  rewrite !StrFacts.length_app in Hlen. simpl in Hlen. lia.
Qed.

(** ** Induction over schema nodes *)

Section SchemaInd.

Variable P : schema -> Prop.

Hypothesis step :
  forall ty rf props items description default id_,
    (forall plist, props = Some plist ->
                   Forall (fun kp => P (snd kp)) plist) ->
    (forall item, items = Some item -> P item) ->
    P (mkSchema ty rf props items description default id_).

Fixpoint schema_ind_nested (s : schema) : P s :=
  match s with
  | mkSchema ty rf props items description default id_ =>
      step ty rf props items description default id_
        (match props as o
               return forall plist, o = Some plist ->
                                    Forall (fun kp => P (snd kp)) plist with
         | None => fun plist H => match H with
                                  | eq_refl => I
                                  end
         | Some l => fun plist H =>
             match H in _ = o
                   return match o with
                          | Some pl => Forall (fun kp => P (snd kp)) pl
                          | None => True
                          end with
             | eq_refl =>
                 (fix all (l : list (string * schema))
                    : Forall (fun kp => P (snd kp)) l :=
                    match l with
                    | [] => Forall_nil _
                    | kp :: rest =>
                        Forall_cons kp (schema_ind_nested (snd kp)) (all rest)
                    end) l
             end
         end)
        (match items as o return forall item, o = Some item -> P item with
         | None => fun item H => match H with eq_refl => I end
         | Some it => fun item H =>
             match H in _ = o
                   return match o with Some x => P x | None => True end with
             | eq_refl => schema_ind_nested it
             end
         end)
  end.

End SchemaInd.

(** ** The cases of [parse_property] *)

Lemma type_of_eq ty rf props items description default id_ :
  type_of (mkSchema ty rf props items description default id_)
  = lookup_type ty rf.
Proof. reflexivity. Qed.

(** A node without type information raises [KeyError('$ref')]. *)
Lemma parse_property_untyped (s : schema) (name : string) (defs : model_defs) :
  untyped s -> parse_property s name defs = Raise (KeyError "$ref").
Proof.
  destruct s as [ty rf props items description default id_].
  intros [Hty Hrf]. simpl in Hty, Hrf. subst. reflexivity.
Qed.

(** A simple type is returned with the rendered default; the registry is
    left as it was. *)
Lemma parse_property_simple (s : schema) (name : string) (defs : model_defs)
    (type_ py_type : string) :
  type_of s = Ok type_ -> simple_types type_ = Some py_type ->
  parse_property s name defs
  = Ok (py_type, render_default (s_default s), defs).
Proof.
  destruct s as [ty rf props items description default id_].
  rewrite type_of_eq. intros Hty Hsimple.
  cbn [parse_property s_default]. now rewrite Hty, Hsimple.
Qed.

(** An object runs [schema_as_string] on the node, under the name made of
    the marker and the field name. *)
Lemma parse_property_object (s : schema) (name : string) (defs : model_defs) :
  type_of s = Ok "object" ->
  parse_property s name defs
  = match schema_as_string s (Some ("_" ++ name)) defs with
    | Raise e => Raise e
    | Ok defs' => Ok (quoted ("_" ++ name), None, defs')
    end.
Proof.
  destruct s as [ty rf props items description default id_].
  rewrite type_of_eq. intros Hty.
  cbn [parse_property]. rewrite Hty.
  change (simple_types "object") with (@None string).
  change (String.eqb "object" "object") with true. cbv iota.
  unfold schema_as_string, properties_of.
  cbn [s_properties s_id s_description].
  destruct props as [plist|]; [|reflexivity].
  match goal with
  | |- ?loop plist _ defs = _ =>
      assert (Hloop : forall ps acc defs0,
                 loop ps acc defs0
                 = match
                     match parse_properties ps acc defs0 with
                     | Ok (properties, defs') =>
                         Ok (emit_class id_ (Some ("_" ++ name)) description
                                        properties defs')
                     | Raise e => Raise e
                     end
                   with
                   | Ok defs' => Ok (quoted ("_" ++ name), None, defs')
                   | Raise e => Raise e
                   end)
  end.
  { induction ps as [|[pname pschema] rest IH]; intros acc defs0.
    - reflexivity.
    - cbn [parse_properties].
      destruct (parse_property pschema (valid_property_name pname) defs0)
        as [[[prop_type pdefault] defs1]|e]; [apply IH | reflexivity]. }
  apply Hloop.
Qed.

(** An array resolves its items under the same field name and wraps the
    type; the default and the registry are those of the items. *)
Lemma parse_property_array (s item : schema) (name : string)
    (defs : model_defs) :
  type_of s = Ok "array" -> s_items s = Some item ->
  parse_property s name defs
  = match parse_property item name defs with
    | Raise e => Raise e
    | Ok (py_type, default, defs') =>
        Ok ("List[" ++ py_type ++ "]", default, defs')
    end.
Proof.
  destruct s as [ty rf props items description default id_].
  rewrite type_of_eq. cbn [s_items]. intros Hty Hitems. subst items.
  cbn [parse_property]. rewrite Hty. reflexivity.
Qed.

Lemma parse_property_array_no_items (s : schema) (name : string)
    (defs : model_defs) :
  type_of s = Ok "array" -> s_items s = None ->
  parse_property s name defs = Raise (KeyError "items").
Proof.
  destruct s as [ty rf props items description default id_].
  rewrite type_of_eq. cbn [s_items]. intros Hty Hitems. subst items.
  cbn [parse_property]. rewrite Hty. reflexivity.
Qed.

(** Any other type is the name of a record, returned quoted. *)
Lemma parse_property_named (s : schema) (name : string) (defs : model_defs)
    (type_ : string) :
  type_of s = Ok type_ -> simple_types type_ = None ->
  type_ <> "object" -> type_ <> "array" ->
  parse_property s name defs = Ok (quoted type_, None, defs).
Proof.
  destruct s as [ty rf props items description default id_].
  rewrite type_of_eq. intros Hty Hsimple Hobj Harr.
  cbn [parse_property]. rewrite Hty, Hsimple.
  apply String.eqb_neq in Hobj, Harr. now rewrite Hobj, Harr.
Qed.

(** ** Simple types *)

(** The table of the specification is the table of the code. *)
Lemma primitive_mapping_simple_types (type_ py_type : string) :
  In (type_, py_type) primitive_mapping <-> simple_types type_ = Some py_type.
Proof.
  split.
  - simpl. intros H.
    repeat (destruct H as [H|H]; [inversion H; subst; reflexivity|]).
    contradiction.
  - unfold simple_types, primitive_mapping. intros H.
    repeat match type of H with
           | (if String.eqb ?a ?b then _ else _) = _ =>
               destruct (String.eqb a b) eqn:E;
               [apply String.eqb_eq in E; inversion H; subst; simpl; tauto|];
               clear E
           end.
    discriminate.
Qed.

Lemma type_of_type (s : schema) (type_ : string) :
  s_type s = Some type_ -> type_of s = Ok type_.
Proof. unfold type_of. now intros ->. Qed.

Lemma type_of_ref (s : schema) (r : string) :
  s_type s = None -> s_ref s = Some r -> type_of s = Ok r.
Proof. unfold type_of. now intros -> ->. Qed.

(** C2: a field node whose "type" is one of the six simple-type keywords
    resolves to the primitive the fixed mapping gives for it (boolean to
    bool, integer to int, string to str, number to float, null to None, any
    to Any); the registry is not touched. *)
Theorem simple_type_resolves_to_primitive (s : schema) (name : string)
    (defs : model_defs) (type_ py_type : string) :
  s_type s = Some type_ ->
  In (type_, py_type) primitive_mapping ->
  parse_property s name defs
  = Ok (py_type, render_default (s_default s), defs).
Proof.
  intros Hty Hin.
  apply parse_property_simple with (type_ := type_).
  - now apply type_of_type.
  - now apply primitive_mapping_simple_types.
Qed.

Lemma simple_type_resolves_to_primitive_witness :
  s_type (Node.typed_default "integer" (PyInt 3)) = Some "integer" /\
  In ("integer", "int") primitive_mapping /\
  parse_property (Node.typed_default "integer" (PyInt 3)) "foo" []
  = Ok ("int", Some "3", []).
Proof.
  split; [reflexivity|]. split; [simpl; tauto|].
  apply (simple_type_resolves_to_primitive
           (Node.typed_default "integer" (PyInt 3)) "foo" [] "integer" "int").
  - reflexivity.
  - simpl; tauto.
Defined.

(** C9: a field node with no "type" whose "$ref" is a simple-type keyword
    resolves to the primitive of that keyword, with the declared default,
    and not to the quoted name of a record. *)
Theorem ref_to_simple_type_resolves_to_primitive (s : schema) (name : string)
    (defs : model_defs) (r py_type : string) :
  s_type s = None -> s_ref s = Some r ->
  In (r, py_type) primitive_mapping ->
  parse_property s name defs
  = Ok (py_type, render_default (s_default s), defs)
  /\ py_type <> quoted r.
Proof.
  intros Hty Href Hin. split.
  - apply parse_property_simple with (type_ := r).
    + now apply type_of_ref.
    + now apply primitive_mapping_simple_types.
  - simpl in Hin.
    repeat (destruct Hin as [Hin|Hin];
            [inversion Hin; subst; intros H; vm_compute in H; discriminate H|]).
    contradiction.
Qed.

Lemma ref_to_simple_type_resolves_to_primitive_witness :
  parse_property
    (mkSchema None (Some "string") None None None (Some (PyStr "bar")) None)
    "foo" []
  = Ok ("str", Some "'bar'", [])
  /\ "str" <> quoted "string".
Proof.
  apply (ref_to_simple_type_resolves_to_primitive
           (mkSchema None (Some "string") None None None
                     (Some (PyStr "bar")) None) "foo" [] "string" "str").
  - reflexivity.
  - reflexivity.
  - simpl; tauto.
Defined.

(** ** Arrays *)

(** C3, as amended: a field node whose "type" is "array" resolves its items
    as a field schema under the same field name and returns the type of the
    items wrapped in List[...], with the default and the registry the items
    gave; a failure of the items is the failure of the array. In particular,
    when the items carry no "type" and a "$ref" r that is neither a
    simple-type keyword nor "object" nor "array", the array resolves to
    List["r"] with no default. *)
Theorem array_wraps_item_type (s item : schema) (name : string)
    (defs : model_defs) :
  s_type s = Some "array" -> s_items s = Some item ->
  parse_property s name defs
  = match parse_property item name defs with
    | Raise e => Raise e
    | Ok (py_type, default, defs') =>
        Ok ("List[" ++ py_type ++ "]", default, defs')
    end
  /\ (forall r,
        s_type item = None -> s_ref item = Some r ->
        simple_types r = None -> r <> "object" -> r <> "array" ->
        parse_property s name defs
        = Ok ("List[" ++ quoted r ++ "]", None, defs)).
Proof.
  intros Hty Hitems.
  assert (Heq := parse_property_array s item name defs
                   (type_of_type s "array" Hty) Hitems).
  split; [exact Heq|].
  intros r Hity Href Hsimple Hobj Harr. rewrite Heq.
  now rewrite (parse_property_named item name defs r
                 (type_of_ref item r Hity Href) Hsimple Hobj Harr).
Qed.

Lemma array_wraps_item_type_witness :
  parse_property (Node.array (Node.ref "OtherName")) "foo" []
  = Ok ("List[" ++ quoted "OtherName" ++ "]", None, []).
Proof.
  apply (proj2 (array_wraps_item_type (Node.array (Node.ref "OtherName"))
                  (Node.ref "OtherName") "foo" [] eq_refl eq_refl)
           "OtherName").
  - reflexivity.
  - reflexivity.
  - reflexivity.
  - discriminate.
  - discriminate.
Defined.

(** C3, refuted as stated: an array whose items carry the "$ref" "string"
    resolves to List[str], not to the list of a reference to "string". *)
Lemma array_of_ref_to_simple_type :
  parse_property (Node.array (Node.ref "string")) "foo" []
  = Ok ("List[str]", None, [])
  /\ parse_property (Node.array (Node.ref "string")) "foo" []
     <> Ok ("List[" ++ quoted "string" ++ "]", None, []).
Proof.
  split; [reflexivity|].
  intros H. vm_compute in H. discriminate H.
Qed.

(** ** Failures *)

Lemma lookup_type_raise (ty rf : option string) (e : exn) :
  lookup_type ty rf = Raise e ->
  ty = None /\ rf = None /\ e = KeyError "$ref".
Proof.
  destruct ty, rf; simpl; intros H; try discriminate.
  inversion H. auto.
Qed.

Lemma type_of_raise (s : schema) (e : exn) :
  type_of s = Raise e -> untyped s /\ e = KeyError "$ref".
Proof.
  unfold type_of, untyped. intros H.
  apply lookup_type_raise in H. tauto.
Qed.

(** The cases of a node whose type was found. *)
Lemma type_cases (type_ : string) :
  (exists py_type, simple_types type_ = Some py_type)
  \/ (simple_types type_ = None /\ type_ = "object")
  \/ (simple_types type_ = None /\ type_ = "array")
  \/ (simple_types type_ = None /\ type_ <> "object" /\ type_ <> "array").
Proof.
  destruct (simple_types type_) as [py|] eqn:E; [eauto|].
  destruct (string_dec type_ "object"); [tauto|].
  destruct (string_dec type_ "array"); tauto.
Qed.







(** A document whose second schema has a field without type information:
    the first schema is well formed, and still nothing is written. *)
Example write_models_untyped_field :
  write_models
    [ ("Good", Node.object [("foo", Node.typed "string")]);
      ("Bad", Node.object [("bar", Node.array Node.empty)]) ] "# models"
  = ("# models", Some (KeyError "$ref")).
Proof. reflexivity. Qed.

(** ** Invariants of the registry *)

Section RegistryInvariant.

Variable Inv : model_defs -> Prop.

Hypothesis Inv_emit :
  forall id_ class_name description properties defs,
    Inv defs -> Inv (emit_class id_ class_name description properties defs).

Let preserved (s : schema) : Prop :=
  forall name defs type_ default defs',
    parse_property s name defs = Ok (type_, default, defs') ->
    Inv defs -> Inv defs'.

Lemma parse_properties_preserves (ps : list (string * schema)) :
  Forall (fun kp => preserved (snd kp)) ps ->
  forall acc defs properties defs',
    parse_properties ps acc defs = Ok (properties, defs') ->
    Inv defs -> Inv defs'.
Proof.
  induction 1 as [|[pname p] rest Hp Hrest IH];
    intros acc defs properties defs' H Hinv.
  - inversion H; now subst.
  - cbn [parse_properties] in H.
    destruct (parse_property p (valid_property_name pname) defs)
      as [[[prop_type pdefault] defs1]|e] eqn:E; [|discriminate].
    apply (IH _ _ _ _ H). exact (Hp _ _ _ _ _ E Hinv).
Qed.

Lemma parse_property_preserves (s : schema) : preserved s.
Proof.
  induction s as [ty rf props items description default id_ IHprops IHitems]
    using schema_ind_nested.
  intros name defs t d defs' H Hinv.
  set (s := mkSchema ty rf props items description default id_) in *.
  destruct (type_of s) as [type_|e] eqn:Hty.
  - destruct (type_cases type_)
      as [[py Hs] | [[Hs ->] | [[Hs ->] | (Hs & Hobj & Harr)]]].
    + rewrite (parse_property_simple s name defs type_ py Hty Hs) in H.
      inversion H; now subst.
    + rewrite (parse_property_object s name defs Hty) in H.
      unfold schema_as_string in H.
      destruct (parse_properties (properties_of s) [] defs)
        as [[properties defs1]|e] eqn:E; [|discriminate].
      inversion H; subst. apply Inv_emit.
      unfold properties_of in E. cbn [s_properties s] in E.
      destruct props as [plist|].
      * exact (parse_properties_preserves plist (IHprops plist eq_refl)
                 _ _ _ _ E Hinv).
      * inversion E; now subst.
    + destruct items as [item|].
      * rewrite (parse_property_array s item name defs Hty eq_refl) in H.
        destruct (parse_property item name defs) as [[[t0 d0] d1]|e] eqn:E;
          [|discriminate].
        inversion H; subst. exact (IHitems item eq_refl _ _ _ _ _ E Hinv).
      * rewrite (parse_property_array_no_items s name defs Hty eq_refl) in H.
        discriminate.
    + rewrite (parse_property_named s name defs type_ Hty Hs Hobj Harr) in H.
      inversion H; now subst.
  - apply type_of_raise in Hty. destruct Hty as [Hu _].
    rewrite (parse_property_untyped s name defs Hu) in H. discriminate.
Qed.

Lemma parse_properties_preserves_all (ps : list (string * schema)) :
  forall acc defs properties defs',
    parse_properties ps acc defs = Ok (properties, defs') ->
    Inv defs -> Inv defs'.
Proof.
  apply parse_properties_preserves. apply Forall_forall.
  intros kp _. apply parse_property_preserves.
Qed.

Lemma schema_as_string_preserves (s : schema) (class_name : option string)
    (defs defs' : model_defs) :
  schema_as_string s class_name defs = Ok defs' -> Inv defs -> Inv defs'.
Proof.
  unfold schema_as_string.
  destruct (parse_properties (properties_of s) [] defs)
    as [[properties defs1]|e] eqn:E; [|discriminate].
  intros H Hinv. inversion H; subst. apply Inv_emit.
  exact (parse_properties_preserves_all _ _ _ _ _ E Hinv).
Qed.

Lemma parse_schemas_preserves (schemas : list (string * schema)) :
  forall defs defs',
    parse_schemas schemas defs = Ok defs' -> Inv defs -> Inv defs'.
Proof.
  induction schemas as [|[name s] rest IH]; intros defs defs' H Hinv.
  - inversion H; now subst.
  - cbn [parse_schemas] in H.
    destruct (schema_as_string s (Some name) defs) as [defs1|e] eqn:E;
      [|discriminate].
    apply (IH _ _ H). exact (schema_as_string_preserves _ _ _ _ E Hinv).
Qed.

End RegistryInvariant.

(** The names of the registry stay distinct. *)
Lemma emit_class_nodup id_ class_name description properties defs :
  NoDup (Dict.keys defs) ->
  NoDup (Dict.keys (emit_class id_ class_name description properties defs)).
Proof. apply DictFacts.nodup_set. Qed.

Lemma parse_properties_nodup (ps : list (string * schema))
    (acc : list property) (defs : model_defs)
    (properties : list property) (defs' : model_defs) :
  parse_properties ps acc defs = Ok (properties, defs') ->
  NoDup (Dict.keys defs) -> NoDup (Dict.keys defs').
Proof.
  apply (parse_properties_preserves_all
           (fun d => NoDup (Dict.keys d)) emit_class_nodup).
Qed.

Lemma SchemaParser_nodup (schemas : list (string * schema))
    (defs : model_defs) :
  SchemaParser schemas = Ok defs -> NoDup (Dict.keys defs).
Proof.
  intros H.
  apply (parse_schemas_preserves
           (fun d => NoDup (Dict.keys d)) emit_class_nodup schemas [] defs H).
  constructor.
Qed.

(** ** Registering records *)

Lemma schema_as_string_ok (s : schema) (class_name : option string)
    (defs : model_defs) (properties : list property) (defs1 : model_defs) :
  parse_properties (properties_of s) [] defs = Ok (properties, defs1) ->
  schema_as_string s class_name defs
  = Ok (emit_class (s_id s) class_name (s_description s) properties defs1).
Proof. unfold schema_as_string. now intros ->. Qed.

(** Two schemas with a nested object under the same field name: one "_foo"
    remains, the one of the schema processed later, at the place of the
    first. *)
Example nested_names_collide :
  SchemaParser
    [ ("A", Node.object [("foo", Node.object [("x", Node.typed "string")])]);
      ("B", Node.object [("foo", Node.object [("y", Node.typed "integer")])]) ]
  = Ok [ ("_foo", class_text "_foo" None [("y", "int", None)]);
         ("A", class_text "A" None [("foo", quoted "_foo", None)]);
         ("B", class_text "B" None [("foo", quoted "_foo", None)]) ].
Proof. reflexivity. Qed.

(** Properties that are all simple leave the registry as it was. *)
Lemma parse_properties_simple (ps : list (string * schema)) :
  Forall (fun kp => simple_node (snd kp)) ps ->
  forall acc defs properties defs1,
    parse_properties ps acc defs = Ok (properties, defs1) -> defs1 = defs.
Proof.
  induction 1 as [|[pname p] rest Hp Hrest IH];
    intros acc defs properties defs1 H.
  - now inversion H.
  - cbn [parse_properties] in H.
    destruct Hp as (type_ & py & Hty & Hs). cbn [snd] in Hty.
    rewrite (parse_property_simple p _ defs type_ py Hty Hs) in H.
    exact (IH _ _ _ _ H).
Qed.

Lemma class_id_class_name (id_ : option string) (name : string)
    (properties : list property) :
  id_ = None \/ id_ = Some "" ->
  class_id id_ (Some ("_" ++ name)) properties = "_" ++ name.
Proof. intros [->| ->]; reflexivity. Qed.

Lemma class_id_id (i : string) (class_name : option string)
    (properties : list property) :
  i <> "" -> class_id (Some i) class_name properties = i.
Proof. destruct i; [congruence | reflexivity]. Qed.

(** C1, as amended: for a field node with type == "object" that declares no
    "id" (or an empty one) and whose properties resolve, resolving the field
    returns a reference to the name made of "_" and the field's sanitized
    name, with no default, and stores the record under that name in the
    registry the properties left: a new entry when the name is absent, the
    replacement of the entry when it is present. When the properties of the
    nested object are all simple types, they leave the registry untouched,
    and if the name is absent exactly one record is added, at the end. *)
Theorem nested_object_registers_record (s : schema) (name : string)
    (defs : model_defs) (properties : list property) (defs1 : model_defs) :
  s_type s = Some "object" ->
  s_id s = None \/ s_id s = Some "" ->
  parse_properties (properties_of s) [] defs = Ok (properties, defs1) ->
  let class_name := "_" ++ name in
  let text := class_text class_name (s_description s) properties in
  parse_property s name defs
  = Ok (quoted class_name, None, Dict.set class_name text defs1)
  /\ (forall pname, name = valid_property_name pname ->
        parse_properties [(pname, s)] [] defs
        = Ok ([(name, quoted class_name, None)],
              Dict.set class_name text defs1))
  /\ (Forall (fun kp => simple_node (snd kp)) (properties_of s) ->
      defs1 = defs
      /\ (Dict.mem class_name defs = false ->
          Dict.set class_name text defs1
          = (defs ++ [(class_name, text)])%list)).
Proof.
  intros Hty Hid Hprops class_name text.
  assert (Heq : parse_property s name defs
                = Ok (quoted class_name, None,
                      Dict.set class_name text defs1)).
  { rewrite (parse_property_object s name defs (type_of_type s _ Hty)).
    rewrite (schema_as_string_ok s _ defs _ _ Hprops).
    unfold emit_class. now rewrite (class_id_class_name _ name _ Hid). }
  split; [exact Heq|]. split.
  - intros pname ->. cbn [parse_properties]. now rewrite Heq.
  - intros Hsimple.
    assert (defs1 = defs)
      by exact (parse_properties_simple _ Hsimple _ _ _ _ Hprops).
    subst defs1. split; [reflexivity|]. apply DictFacts.set_absent.
Qed.

Lemma nested_object_registers_record_witness :
  parse_property (Node.object [("bar", Node.typed "string")]) "foo" []
  = Ok (quoted "_foo", None,
        [("_foo", class_text "_foo" None [("bar", "str", None)])]).
Proof.
  apply (proj1 (nested_object_registers_record
                  (Node.object [("bar", Node.typed "string")]) "foo" []
                  [("bar", "str", None)] [] eq_refl (or_introl eq_refl)
                  eq_refl)).
Defined.

(** C1, refuted as stated: a nested object that declares the "id" "Bar" is
    registered under "Bar"; the one record added is not named "_foo". *)
Lemma nested_object_with_id_not_under_field_name :
  exists text,
    parse_property
      (Node.object_id "Bar" [("bar", Node.typed "string")]) "foo" []
    = Ok (quoted "_foo", None, [("Bar", text)])
    /\ Dict.get "_foo" [("Bar", text)] = None.
Proof. eexists. split; reflexivity. Qed.

(** C10, as amended: for a field node with type == "object" that declares a
    non-empty "id" differing from "_" followed by the sanitized field name,
    and whose properties resolve, the nested record is stored in the
    registry under the "id", while the type of the parent field is the
    reference to "_" followed by the field name; storing the record leaves
    the entry of that name as the properties left it, so the reference names
    a registry entry only when a record of that name was registered
    independently. *)
Theorem object_with_id_registered_under_id (s : schema) (name : string)
    (defs : model_defs) (properties : list property) (defs1 : model_defs)
    (i : string) :
  s_type s = Some "object" ->
  s_id s = Some i -> i <> "" -> i <> "_" ++ name ->
  parse_properties (properties_of s) [] defs = Ok (properties, defs1) ->
  let text := class_text i (s_description s) properties in
  let registry := Dict.set i text defs1 in
  parse_property s name defs = Ok (quoted ("_" ++ name), None, registry)
  /\ Dict.get i registry = Some text
  /\ Dict.get ("_" ++ name) registry = Dict.get ("_" ++ name) defs1
  /\ (Dict.mem ("_" ++ name) defs1 = false ->
      Dict.mem ("_" ++ name) registry = false).
Proof.
  intros Hty Hid Hne Hdiff Hprops text registry.
  assert (Hget : Dict.get ("_" ++ name) registry
                 = Dict.get ("_" ++ name) defs1).
  { apply DictFacts.get_set_other. congruence. }
  split.
  - rewrite (parse_property_object s name defs (type_of_type s _ Hty)).
    rewrite (schema_as_string_ok s _ defs _ _ Hprops).
    unfold emit_class. rewrite Hid. now rewrite (class_id_id i _ _ Hne).
  - split; [apply DictFacts.get_set_same|]. split; [exact Hget|].
    unfold Dict.mem. now rewrite Hget.
Qed.

Lemma object_with_id_registered_under_id_witness :
  parse_property (Node.object_id "Bar" [("bar", Node.typed "string")]) "foo" []
  = Ok (quoted "_foo", None,
        [("Bar", class_text "Bar" None [("bar", "str", None)])]).
Proof.
  apply (proj1 (object_with_id_registered_under_id
                  (Node.object_id "Bar" [("bar", Node.typed "string")])
                  "foo" [] [("bar", "str", None)] [] "Bar"
                  eq_refl eq_refl ltac:(discriminate) ltac:(discriminate)
                  eq_refl)).
Defined.

(** C10, refuted as stated: after a schema whose field "foo" is a nested
    object without "id", a second field "foo" whose nested object declares
    the "id" "Bar" is registered under "Bar" and typed by the reference to
    "_foo", which does name a registry entry: the record of the first
    schema. *)
Lemma reference_of_object_with_id_names_an_entry :
  exists defs text registry,
    SchemaParser
      [("A", Node.object [("foo", Node.object [("x", Node.typed "string")])])]
    = Ok defs
    /\ parse_property (Node.object_id "Bar" []) "foo" defs
       = Ok (quoted "_foo", None, registry)
    /\ Dict.get "Bar" registry = Some text
    /\ Dict.mem "_foo" registry = true.
Proof. do 3 eexists. repeat split; reflexivity. Qed.

(** ** The docstring formatter *)

Lemma format_docstring_empty (indent : string) :
  format_docstring "" indent = "".
Proof. reflexivity. Qed.

(** The two shapes of a docstring: the closing delimiter follows the text
    when the indent, the opening delimiter and the whole wrapped text, line
    breaks included, count at most 77 characters; else it stands on a line
    of its own. *)
Lemma format_docstring_shape (text indent : string) :
  text <> "" ->
  let opened := indent ++ TRIPLE ++ TextWrap.fill indent text in
  format_docstring text indent
  = if (77 <? String.length opened)%nat
    then opened ++ PyStr.LF ++ indent ++ TRIPLE ++ PyStr.LF
    else opened ++ TRIPLE ++ PyStr.LF.
Proof.
  intros Hne. unfold format_docstring.
  destruct text; [congruence | reflexivity].
Qed.

(** C5, where the code departs from it: a description of sixty letters,
    twenty spaces and one letter is wrapped into two lines, the spaces
    dropped at the break; the wrapped text counts 66 characters, so the
    closing delimiter is put right after the second line: the block is
    neither a single line nor closed by a delimiter on its own line. *)
Theorem docstring_wrapped_text_closed_inline :
  PyStr.split_lines
    (format_docstring
       ("aaaaaaaaaaaaaaaaaaaaaaaaaaaaaaaaaaaaaaaaaaaaaaaaaaaaaaaaaaaa"
        ++ "                    " ++ "b")
       INDENT)
  = [ INDENT ++ TRIPLE
        ++ "aaaaaaaaaaaaaaaaaaaaaaaaaaaaaaaaaaaaaaaaaaaaaaaaaaaaaaaaaaaa";
      INDENT ++ "b" ++ TRIPLE;
      "" ].
Proof. vm_compute. reflexivity. Qed.

(** The descriptions of the repository's tests. *)
Example docstring_single_line :
  format_docstring "A ModelName instance." INDENT
  = INDENT ++ TRIPLE ++ "A ModelName instance." ++ TRIPLE ++ PyStr.LF.
Proof. vm_compute. reflexivity. Qed.

Example docstring_multiple_lines :
  PyStr.split_lines
    (format_docstring
       ("A ModelName instance.A ModelName instance."
        ++ "A ModelName instance.A ModelName instance.")
       INDENT)
  = [ INDENT ++ TRIPLE
        ++ "A ModelName instance.A ModelName instance.A ModelName instance.A";
      INDENT ++ "ModelName instance.";
      INDENT ++ TRIPLE;
      "" ].
Proof. vm_compute. reflexivity. Qed.

(** ** The writer *)

Lemma ends_with_newline_LF : ends_with_newline PyStr.LF.
Proof. now exists "". Qed.

Lemma ends_with_newline_app (a b : string) :
  ends_with_newline b -> ends_with_newline (a ++ b).
Proof.
  intros [body ->]. exists (a ++ body). now rewrite StrFacts.app_assoc.
Qed.

Ltac ends_newline :=
  repeat first [ apply ends_with_newline_LF | apply ends_with_newline_app ].

Lemma format_docstring_ends_with_newline (text indent : string) :
  format_docstring text indent = ""
  \/ ends_with_newline (format_docstring text indent).
Proof.
  unfold format_docstring. destruct (PyStr.truthy text); [right | now left].
  cbv zeta.
  match goal with |- context [if ?c then _ else _] => destruct c end;
    ends_newline.
Qed.

Lemma property_line_ends_with_newline (p : property) :
  ends_with_newline (property_line p).
Proof.
  destruct p as [[name type_] default]. unfold property_line.
  cbv beta iota zeta. ends_newline.
Qed.

Lemma join_lines_ends_with_newline (l : list string) :
  l <> [] -> Forall ends_with_newline l ->
  ends_with_newline (PyStr.join "" l).
Proof.
  induction l as [|a [|b rest] IH]; intros Hne Hall.
  - congruence.
  - now inversion Hall.
  - change (PyStr.join "" (a :: b :: rest))
      with (a ++ "" ++ PyStr.join "" (b :: rest)).
    ends_newline. apply IH; [discriminate | now inversion Hall].
Qed.

(** Every class text ends with a newline. *)
Lemma class_text_ends_with_newline (id_ : string)
    (description : option string) (properties : list property) :
  ends_with_newline (class_text id_ description properties).
Proof.
  unfold class_text. cbv zeta.
  set (docstring := format_docstring _ INDENT).
  destruct properties as [|p rest].
  - destruct (format_docstring_ends_with_newline
                (match description with Some t => t | None => "" end) INDENT)
      as [He|He]; fold docstring in He.
    + rewrite He. cbn [PyStr.truthy]. ends_newline.
    + destruct (PyStr.truthy docstring); [|ends_newline].
      cbn [map PyStr.join]. rewrite StrFacts.app_empty_r.
      do 4 apply ends_with_newline_app. exact He.
  - apply ends_with_newline_app. apply join_lines_ends_with_newline.
    + discriminate.
    + apply Forall_forall. intros l Hl. apply in_map_iff in Hl.
      destruct Hl as [q [<- _]]. apply property_line_ends_with_newline.
Qed.

Lemma values_set_forall (P : string -> Prop) (k v : string)
    (d : model_defs) :
  P v -> Forall P (Dict.values d) -> Forall P (Dict.values (Dict.set k v d)).
Proof.
  intros Hv. induction d as [|[k' v'] d IH]; simpl; intros H.
  - now constructor.
  - inversion H; subst.
    destruct (String.eqb k k'); simpl; constructor; auto.
Qed.

Lemma emit_class_ends_with_newline id_ class_name description properties
    defs :
  Forall ends_with_newline (Dict.values defs) ->
  Forall ends_with_newline
    (Dict.values (emit_class id_ class_name description properties defs)).
Proof.
  apply values_set_forall. apply class_text_ends_with_newline.
Qed.

Lemma join_consecutive (sep : string) (l1 : list string) (d1 d2 : string)
    (l2 : list string) :
  exists before after,
    PyStr.join sep (l1 ++ d1 :: d2 :: l2)%list
    = before ++ d1 ++ sep ++ d2 ++ after.
Proof.
  induction l1 as [|a l1 IH].
  - exists "". cbn [app].
    change (PyStr.join sep (d1 :: d2 :: l2))
      with (d1 ++ sep ++ PyStr.join sep (d2 :: l2)).
    destruct l2 as [|d3 l2].
    + exists "". cbn [PyStr.join]. now rewrite StrFacts.app_empty_r.
    + exists (sep ++ PyStr.join sep (d3 :: l2)). reflexivity.
  - destruct IH as (before & after & IH).
    exists (a ++ sep ++ before), after.
    change ((a :: l1) ++ d1 :: d2 :: l2)%list
      with (a :: (l1 ++ d1 :: d2 :: l2))%list.
    destruct (l1 ++ d1 :: d2 :: l2)%list as [|x rest] eqn:E.
    + destruct l1; discriminate.
    + change (PyStr.join sep (a :: x :: rest))
        with (a ++ sep ++ PyStr.join sep (x :: rest)).
      rewrite IH. now rewrite !StrFacts.app_assoc.
Qed.

(** C7, refuted as stated: between the two definitions written for two
    empty schemas there are two blank lines, not one. *)
Lemma writer_leaves_two_blank_lines :
  PyStr.split_lines
    (fst (write_models [("A", Node.object []); ("B", Node.object [])] ""))
  = [ "class A(pydantic.BaseModel):"; "    pass"; ""; "";
      "class B(pydantic.BaseModel):"; "    pass"; "" ]
  /\ blank_runs
       (fst (write_models [("A", Node.object []); ("B", Node.object [])] ""))
     = [2]
  /\ blank_runs
       (fst (write_models [("A", Node.object []); ("B", Node.object [])] ""))
     <> [1].
Proof. repeat split; try reflexivity. discriminate. Qed.

(** * Further properties of the parser *)

(** ** Field names *)

(** The name [valid_property_name] returns is never a Python keyword or
    builtin. *)
Theorem sanitized_name_not_reserved (name : string) :
  in_python_keywords (valid_property_name name) = false.
Proof.
  unfold valid_property_name.
  destruct (in_python_keywords name) eqn:E.
  - now apply suffixed_not_reserved.
  - exact E.
Qed.

Lemma app_marker_inj (a b : string) : a ++ "_" = b ++ "_" -> a = b.
Proof.
  revert b. induction a as [|x a IH]; intros [|y b] H; simpl in H.
  - reflexivity.
  - inversion H as [[Hx Hr]]. destruct b; discriminate.
  - inversion H as [[Hx Hr]]. destruct a; discriminate.
  - inversion H as [[Hx Hr]]. f_equal. now apply IH.
Qed.

(** Two property names get the same field name exactly when they are equal
    or one of them is reserved and the other is that name followed by the
    marker: "class" and "class_" both become "class_". *)
Theorem sanitizer_collisions (a b : string) :
  valid_property_name a = valid_property_name b
  <-> a = b
      \/ (in_python_keywords a = true /\ b = a ++ "_")
      \/ (in_python_keywords b = true /\ a = b ++ "_").
Proof.
  unfold valid_property_name. split.
  - destruct (in_python_keywords a) eqn:Ea, (in_python_keywords b) eqn:Eb;
      intros H.
    + left. now apply app_marker_inj.
    + right. left. auto.
    + right. right. auto.
    + now left.
  - intros [-> | [[Ha ->] | [Hb ->]]].
    + reflexivity.
    + rewrite Ha. now rewrite (suffixed_not_reserved a Ha).
    + rewrite Hb. now rewrite (suffixed_not_reserved b Hb).
Qed.

Lemma sanitizer_collisions_witness :
  valid_property_name "class" = valid_property_name "class_".
Proof.
  apply (proj2 (sanitizer_collisions "class" "class_")).
  right. left. split; reflexivity.
Defined.

(** The loop over the properties yields one field per property, in the
    order of the schema, named by the sanitized property name. *)
Theorem parse_properties_names (ps : list (string * schema))
    (acc : list property) (defs : model_defs)
    (properties : list property) (defs' : model_defs) :
  parse_properties ps acc defs = Ok (properties, defs') ->
  map property_name properties
  = (map property_name acc
     ++ map (fun kp => valid_property_name (fst kp)) ps)%list.
Proof.
  revert acc defs. induction ps as [|[pname p] rest IH]; intros acc defs H.
  - inversion H; subst. now rewrite app_nil_r.
  - cbn [parse_properties] in H.
    destruct (parse_property p (valid_property_name pname) defs)
      as [[[prop_type pdefault] defs1]|e]; [|discriminate].
    rewrite (IH _ _ H). rewrite map_app. cbn [map property_name fst].
    now rewrite <- app_assoc.
Qed.

Lemma parse_properties_names_witness :
  map property_name
      [("class_", "str", None); ("foo", "int", None) : property]
  = (map property_name []
     ++ map (fun kp => valid_property_name (fst kp))
            [("class", Node.typed "string"); ("foo", Node.typed "integer")])%list.
Proof.
  apply (parse_properties_names
           [("class", Node.typed "string"); ("foo", Node.typed "integer")]
           [] [] _ []).
  reflexivity.
Defined.

(** ** Defaults *)

Lemma repr_not_empty (v : pyvalue) : PyRepr.repr v <> "".
Proof.
  destruct v as [|[|]|z|s]; try discriminate.
  unfold PyRepr.repr, PyRepr.repr_int.
  destruct (Z.to_int z) as [d|d]; [|discriminate].
  destruct d; discriminate.
Qed.

(** ** Types *)

(** The type [parse_property] returns is a primitive, a quoted name, or
    List[...] around such a type. *)
Theorem parse_property_type_expr (s : schema) :
  forall name defs type_ default defs',
    parse_property s name defs = Ok (type_, default, defs') ->
    type_expr type_.
Proof.
  induction s as [ty rf props items description default0 id_ IHprops IHitems]
    using schema_ind_nested.
  intros name defs t d defs' H.
  set (s := mkSchema ty rf props items description default0 id_) in *.
  destruct (type_of s) as [type_|e] eqn:Hty.
  - destruct (type_cases type_)
      as [[py Hs] | [[Hs ->] | [[Hs ->] | (Hs & Hobj & Harr)]]].
    + rewrite (parse_property_simple s name defs type_ py Hty Hs) in H.
      inversion H; subst. now apply type_expr_simple with (type_ := type_).
    + rewrite (parse_property_object s name defs Hty) in H.
      destruct (schema_as_string s (Some ("_" ++ name)) defs); [|discriminate].
      inversion H; subst. constructor.
    + destruct items as [item|].
      * rewrite (parse_property_array s item name defs Hty eq_refl) in H.
        destruct (parse_property item name defs) as [[[t0 d0] d1]|e] eqn:E;
          [|discriminate].
        inversion H; subst. constructor.
        exact (IHitems item eq_refl _ _ _ _ _ E).
      * rewrite (parse_property_array_no_items s name defs Hty eq_refl) in H.
        discriminate.
    + rewrite (parse_property_named s name defs type_ Hty Hs Hobj Harr) in H.
      inversion H; subst. constructor.
  - apply type_of_raise in Hty. destruct Hty as [Hu _].
    rewrite (parse_property_untyped s name defs Hu) in H. discriminate.
Qed.

Lemma parse_property_type_expr_witness :
  type_expr ("List[" ++ "List[" ++ quoted "Other" ++ "]" ++ "]").
Proof.
  apply (parse_property_type_expr
           (Node.array (Node.array (Node.ref "Other"))) "foo" []
           _ None []).
  reflexivity.
Defined.

(** An array of nested objects stores the record of its items under the
    name of the field, "_" followed by the field name, and is typed by the
    list of the reference to it. *)
Theorem array_of_objects_registers_record (s item : schema) (name : string)
    (defs : model_defs) (properties : list property) (defs1 : model_defs) :
  type_of s = Ok "array" -> s_items s = Some item ->
  type_of item = Ok "object" -> s_id item = None ->
  parse_properties (properties_of item) [] defs = Ok (properties, defs1) ->
  parse_property s name defs
  = Ok ("List[" ++ quoted ("_" ++ name) ++ "]", None,
        Dict.set ("_" ++ name)
          (class_text ("_" ++ name) (s_description item) properties) defs1).
Proof.
  intros Hty Hitems Hity Hid Hprops.
  rewrite (parse_property_array s item name defs Hty Hitems).
  rewrite (parse_property_object item name defs Hity).
  rewrite (schema_as_string_ok item _ defs _ _ Hprops).
  unfold emit_class. rewrite Hid. reflexivity.
Qed.

Lemma array_of_objects_registers_record_witness :
  parse_property
    (Node.array (Node.object [("bar", Node.typed "string")])) "foo" []
  = Ok ("List[" ++ quoted ("_" ++ "foo") ++ "]", None,
        Dict.set ("_" ++ "foo")
          (class_text ("_" ++ "foo") None [("bar", "str", None)]) []).
Proof.
  apply (array_of_objects_registers_record
           (Node.array (Node.object [("bar", Node.typed "string")]))
           (Node.object [("bar", Node.typed "string")]) "foo" []
           [("bar", "str", None)] []); reflexivity.
Defined.

(** ** Failures of the resolution *)

Lemma broken_node_raises (s : schema) (name : string) (defs : model_defs) :
  broken_node s -> exists e, parse_property s name defs = Raise e.
Proof.
  intros [Hu | [Hty Hitems]].
  - exists (KeyError "$ref"). now apply parse_property_untyped.
  - exists (KeyError "items"). now apply parse_property_array_no_items.
Qed.

(** A property that fails whatever the field name and the registry makes
    the loop over the properties fail. *)
Lemma parse_properties_fails (ps : list (string * schema)) (pname : string)
    (p : schema) :
  In (pname, p) ps ->
  (forall name defs, exists e, parse_property p name defs = Raise e) ->
  forall acc defs, exists e, parse_properties ps acc defs = Raise e.
Proof.
  intros Hin Hfail.
  induction ps as [|[qname q] rest IH]; intros acc defs; [contradiction|].
  cbn [parse_properties].
  destruct (parse_property q (valid_property_name qname) defs)
    as [[[prop_type pdefault] defs1]|e] eqn:E; [|eauto].
  destruct Hin as [Heq|Hin].
  - inversion Heq; subst.
    destruct (Hfail (valid_property_name pname) defs) as [e He]. congruence.
  - now apply IH.
Qed.

Lemma visits_broken_raises (s n : schema) :
  visits s n -> broken_node n ->
  forall name defs, exists e, parse_property s name defs = Raise e.
Proof.
  induction 1 as [s | s item n Hty Hitems Hv IH
                    | s plist pname p n Hty Hprops Hin Hv IH];
    intros Hb name defs.
  - now apply broken_node_raises.
  - rewrite (parse_property_array s item name defs Hty Hitems).
    destruct (IH Hb name defs) as [e ->]. eauto.
  - rewrite (parse_property_object s name defs Hty).
    unfold schema_as_string, properties_of. rewrite Hprops.
    destruct (parse_properties_fails plist pname p Hin (IH Hb) [] defs)
      as [e ->].
    eauto.
Qed.

(** ** The registry over a whole build *)

Lemma keys_set_extend (k v : string) (d : model_defs) :
  exists added, Dict.keys (Dict.set k v d) = (Dict.keys d ++ added)%list.
Proof.
  destruct (Dict.mem k d) eqn:E.
  - exists []. rewrite app_nil_r. now apply DictFacts.keys_set_present.
  - exists [k]. rewrite (DictFacts.set_absent k v d E).
    unfold Dict.keys. now rewrite map_app.
Qed.

Lemma emit_class_extends (before : list string) id_ class_name description
    properties defs :
  (exists added, Dict.keys defs = (before ++ added)%list) ->
  exists added,
    Dict.keys (emit_class id_ class_name description properties defs)
    = (before ++ added)%list.
Proof.
  intros [added H]. unfold emit_class.
  destruct (keys_set_extend
              (class_id id_ class_name properties)
              (class_text (class_id id_ class_name properties)
                          description properties) defs) as [more ->].
  exists (added ++ more)%list. rewrite H. now rewrite app_assoc.
Qed.

Lemma parse_property_keys_extend (s : schema) (name : string)
    (defs : model_defs) (type_ : string) (default : option string)
    (defs' : model_defs) :
  parse_property s name defs = Ok (type_, default, defs') ->
  exists added, Dict.keys defs' = (Dict.keys defs ++ added)%list.
Proof.
  intros H.
  apply (parse_property_preserves
           (fun x => exists added,
                       Dict.keys x = (Dict.keys defs ++ added)%list)
           (emit_class_extends (Dict.keys defs)) s name defs _ _ defs' H).
  exists []. now rewrite app_nil_r.
Qed.

Lemma parse_schemas_keys_extend (schemas : list (string * schema))
    (defs defs' : model_defs) :
  parse_schemas schemas defs = Ok defs' ->
  exists added, Dict.keys defs' = (Dict.keys defs ++ added)%list.
Proof.
  intros H.
  apply (parse_schemas_preserves
           (fun x => exists added,
                       Dict.keys x = (Dict.keys defs ++ added)%list)
           (emit_class_extends (Dict.keys defs)) schemas defs defs' H).
  exists []. now rewrite app_nil_r.
Qed.

(** Resolving a field, and parsing a whole document, never removes or moves
    an entry of the registry: the names present before are, in the same
    order, the first names afterwards. *)
Theorem registry_keys_extend :
  (forall s name defs type_ default defs',
      parse_property s name defs = Ok (type_, default, defs') ->
      exists added, Dict.keys defs' = (Dict.keys defs ++ added)%list)
  /\ (forall schemas defs defs',
         parse_schemas schemas defs = Ok defs' ->
         exists added, Dict.keys defs' = (Dict.keys defs ++ added)%list).
Proof.
  split.
  - exact parse_property_keys_extend.
  - exact parse_schemas_keys_extend.
Qed.

Lemma registry_keys_extend_witness :
  exists added,
    Dict.keys [("Old", "text");
               ("_foo", class_text "_foo" None [("bar", "str", None)])]
    = (Dict.keys [("Old", "text")] ++ added)%list.
Proof.
  apply (proj1 registry_keys_extend
           (Node.object [("bar", Node.typed "string")]) "foo"
           [("Old", "text")] (quoted "_foo") None).
  reflexivity.
Defined.

(** Every top-level schema that declares no "id" and has a non-empty name
    has an entry under its name in the registry of a successful build. *)
Theorem top_level_schema_registered (schemas : list (string * schema))
    (defs : model_defs) (name : string) (s : schema) :
  SchemaParser schemas = Ok defs ->
  In (name, s) schemas -> name <> "" -> s_id s = None ->
  In name (Dict.keys defs).
Proof.
  unfold SchemaParser. generalize (@nil (string * string)).
  induction schemas as [|[name0 s0] rest IH]; intros defs0 H Hin Hne Hid;
    [contradiction|].
  cbn [parse_schemas] in H.
  destruct (schema_as_string s0 (Some name0) defs0) as [defs1|e] eqn:E;
    [|discriminate].
  destruct Hin as [Heq|Hin]; [|exact (IH defs1 H Hin Hne Hid)].
  inversion Heq; subst name0 s0.
  destruct (parse_schemas_keys_extend rest defs1 defs H) as [added ->].
  apply in_or_app. left.
  unfold schema_as_string in E.
  destruct (parse_properties (properties_of s) [] defs0)
    as [[properties d]|e]; [|discriminate].
  inversion E; subst defs1. unfold emit_class. rewrite Hid.
  apply DictFacts.in_keys_set. left.
  destruct name; [congruence | reflexivity].
Qed.

Lemma top_level_schema_registered_witness :
  In "A" (Dict.keys
            [("_foo", class_text "_foo" None []);
             ("A", class_text "A" None [("foo", quoted "_foo", None)]);
             ("B", class_text "B" None [])]).
Proof.
  apply (top_level_schema_registered
           [("A", Node.object [("foo", Node.object [])]);
            ("B", Node.object [])]
           _ "A" (Node.object [("foo", Node.object [])])).
  - reflexivity.
  - left. reflexivity.
  - discriminate.
  - reflexivity.
Defined.

Lemma ends_with_newline_not_empty (text : string) :
  ends_with_newline text -> text <> "".
Proof. intros [body ->]. destruct body; discriminate. Qed.

(** A class text is the header of its name followed by a body that is not
    empty and ends with a newline: a docstring, field lines, or "pass". *)
Lemma class_text_body (id_ : string) (description : option string)
    (properties : list property) :
  exists body,
    class_text id_ description properties = class_header id_ ++ body
    /\ ends_with_newline body.
Proof.
  unfold class_text, class_header. cbv zeta.
  set (docstring := format_docstring _ INDENT).
  destruct properties as [|p rest].
  - destruct (format_docstring_ends_with_newline
                (match description with Some t => t | None => "" end) INDENT)
      as [He|He]; fold docstring in He.
    + rewrite He. cbn [PyStr.truthy map PyStr.join].
      exists (INDENT ++ "pass" ++ PyStr.LF). split.
      * now rewrite ?StrFacts.app_assoc, ?StrFacts.app_empty_r.
      * ends_newline.
    + assert (Ht : PyStr.truthy docstring = true).
      { apply ends_with_newline_not_empty in He.
        destruct docstring; [congruence | reflexivity]. }
      rewrite Ht. cbn [map PyStr.join]. exists docstring. split.
      * now rewrite ?StrFacts.app_assoc, ?StrFacts.app_empty_r.
      * exact He.
  - exists (docstring ++ PyStr.join "" (map property_line (p :: rest))).
    split.
    + now rewrite !StrFacts.app_assoc.
    + apply ends_with_newline_app. apply join_lines_ends_with_newline.
      * discriminate.
      * apply Forall_forall. intros l Hl. apply in_map_iff in Hl.
        destruct Hl as [q [<- _]]. apply property_line_ends_with_newline.
Qed.

Lemma set_entries_forall (P : string * string -> Prop) (k v : string)
    (d : model_defs) :
  P (k, v) -> Forall P d -> Forall P (Dict.set k v d).
Proof.
  intros Hv. induction d as [|[k' v'] d IH]; simpl; intros H.
  - now constructor.
  - inversion H; subst.
    destruct (String.eqb k k'); constructor; auto.
Qed.

Lemma emit_class_defines id_ class_name description properties defs :
  Forall defines defs ->
  Forall defines (emit_class id_ class_name description properties defs).
Proof.
  apply set_entries_forall. unfold defines. cbn [fst snd].
  destruct (class_text_body (class_id id_ class_name properties)
              description properties) as (body & Heq & Hnl).
  exists body. split; [exact Heq | now apply ends_with_newline_not_empty].
Qed.

(** In the registry of a successful build every entry holds the definition
    of the class it is stored under: its text is the header
    "class <name>(pydantic.BaseModel):" followed by a body that is not
    empty. *)
Theorem registry_entries_define_their_class
    (schemas : list (string * schema)) (defs : model_defs) :
  SchemaParser schemas = Ok defs -> Forall defines defs.
Proof.
  intros H.
  apply (parse_schemas_preserves (Forall defines) emit_class_defines
           schemas [] defs H).
  constructor.
Qed.

Lemma registry_entries_define_their_class_witness :
  Forall defines [("A", class_text "A" None [])].
Proof.
  apply (registry_entries_define_their_class [("A", Node.object [])]).
  reflexivity.
Defined.

(** Parsing two documents one after the other, the second from the registry
    the first left, is parsing their concatenation; a failure in the first
    is the failure of the whole. *)
Theorem parse_schemas_app (a b : list (string * schema)) (defs : model_defs) :
  parse_schemas (a ++ b) defs
  = match parse_schemas a defs with
    | Raise e => Raise e
    | Ok defs' => parse_schemas b defs'
    end.
Proof.
  revert defs. induction a as [|[name s] rest IH]; intros defs.
  - reflexivity.
  - cbn [app parse_schemas].
    destruct (schema_as_string s (Some name) defs); [apply IH | reflexivity].
Qed.

(** ** The width of the wrapped text *)

Module WrapFacts.

Import TextWrap.

Lemma len_app (a b : chunk) : len (a ++ b)%list = (len a + len b)%Z.
Proof. unfold len. rewrite length_app. lia. Qed.

Lemma len_nonneg (a : chunk) : (0 <= len a)%Z.
Proof. unfold len. lia. Qed.

Lemma len_concat_cons (c : chunk) (l : list chunk) :
  len (concat (c :: l)) = (len c + len (concat l))%Z.
Proof. cbn [concat]. apply len_app. Qed.

Lemma len_concat_rev (l : list chunk) :
  len (concat (rev l)) = len (concat l).
Proof.
  induction l as [|c l IH]; [reflexivity|].
  cbn [rev]. rewrite concat_app, len_app, IH. cbn [concat].
  rewrite app_nil_r, len_app. lia.
Qed.

(** The chunks moved to the current line never exceed the width. *)
Lemma take_fitting_bound (width : Z) (chunks : list chunk) :
  forall cur_len cur_line cl len' rest,
    take_fitting width cur_len cur_line chunks = (cl, len', rest) ->
    cur_len = len (concat cur_line) -> (cur_len <= width)%Z ->
    len' = len (concat cl) /\ (len' <= width)%Z.
Proof.
  induction chunks as [|ch more IH];
    intros cur_len cur_line cl len' rest H Hlen Hle.
  - inversion H; subst. auto.
  - cbn [take_fitting] in H.
    destruct (cur_len + len ch <=? width)%Z eqn:E.
    + apply Z.leb_le in E. apply (IH _ _ _ _ _ H).
      * rewrite len_concat_cons. lia.
      * exact E.
    + inversion H; subst. auto.
Qed.

Lemma len_firstn (n : nat) (c : chunk) : (len (firstn n c) <= Z.of_nat n)%Z.
Proof. unfold len. pose proof (firstn_le_length n c). lia. Qed.

(** One round of [_wrap_chunks] builds a line within the width. *)
Lemma wrap_chunks_bound (fuel : nat) (initial_indent subsequent_indent : chunk) :
  (len initial_indent < WIDTH)%Z -> (len subsequent_indent < WIDTH)%Z ->
  forall lines chunks,
    Forall (fun l => (len l <= WIDTH)%Z) lines ->
    Forall (fun l => (len l <= WIDTH)%Z)
           (wrap_chunks fuel initial_indent subsequent_indent lines chunks).
Proof.
  intros Hinit Hsub.
  induction fuel as [|fuel IH]; intros lines chunks Hlines.
  - cbn [wrap_chunks]. now apply Forall_rev.
  - cbn [wrap_chunks]. destruct chunks as [|first others].
    + now apply Forall_rev.
    + cbv zeta.
      set (has_lines := match lines with [] => false | _ => true end).
      set (indent := if has_lines then subsequent_indent else initial_indent).
      assert (Hind : (len indent < WIDTH)%Z)
        by (unfold indent; destruct has_lines; assumption).
      set (width := (WIDTH - len indent)%Z).
      assert (Hw : (1 <= width)%Z) by (unfold width; lia).
      destruct (take_fitting width 0 []
                  (if blank first && has_lines then others
                   else first :: others))
        as [[cur_line cur_len] chunks2] eqn:Etake.
      assert (Htake : cur_len = len (concat cur_line) /\ (cur_len <= width)%Z).
      { apply (take_fitting_bound width _ 0%Z [] _ _ _ Etake);
          [reflexivity | lia]. }
      destruct Htake as [Hcl Hcw].
      match goal with
      | |- context [let '(a, b) := ?X in _] =>
          assert (Hlong : forall cl2 ch3, X = (cl2, ch3) ->
                                          (len (concat cl2) <= width)%Z)
      end.
      { intros cl2 ch3 HX. destruct chunks2 as [|ch rest].
        - injection HX as <- <-. lia.
        - destruct (width <? len ch)%Z.
          + unfold handle_long_word in HX.
            destruct (width <? 1)%Z eqn:E1;
              [apply Z.ltb_lt in E1; lia|].
            injection HX as <- <-. rewrite len_concat_cons.
            pose proof (len_firstn (Z.to_nat (width - cur_len)) ch).
            pose proof (len_nonneg (concat cur_line)). lia.
          + injection HX as <- <-. lia. }
      match goal with
      | |- context [let '(a, b) := ?X in _] =>
          destruct X as [cur_line2 chunks3] eqn:Elong
      end.
      specialize (Hlong _ _ eq_refl).
      apply IH.
      assert (H3 : forall cl3,
                 cl3 = match cur_line2 with
                       | last :: earlier =>
                           if blank last then earlier else cur_line2
                       | [] => []
                       end ->
                 (len (concat cl3) <= width)%Z).
      { intros cl3 ->. destruct cur_line2 as [|last earlier]; [exact Hlong|].
        destruct (blank last); [|exact Hlong].
        rewrite len_concat_cons in Hlong.
        pose proof (len_nonneg last). lia. }
      specialize (H3 _ eq_refl).
      match goal with
      | |- Forall _ (match ?c with [] => _ | _ => _ end) =>
          destruct c as [|x xs] eqn:E3
      end.
      * exact Hlines.
      * constructor; [|exact Hlines].
        rewrite len_app, len_concat_rev. unfold width in H3. lia.
Qed.

Lemma length_string_of_list_ascii (l : list ascii) :
  String.length (string_of_list_ascii l) = length l.
Proof. induction l as [|c l IH]; simpl; [reflexivity | now rewrite IH]. Qed.

Lemma length_list_ascii_of_string (s : string) :
  length (list_ascii_of_string s) = String.length s.
Proof. induction s as [|c s IH]; simpl; [reflexivity | now rewrite IH]. Qed.

(** With an indent shorter than 70 characters, no line of the wrapped text
    is longer than 70 characters. *)
Lemma wrap_lines_fit (indent text : string) :
  String.length indent < 70 ->
  Forall (fun l => String.length l <= 70) (wrap indent text).
Proof.
  intros Hindent. unfold wrap. cbv zeta.
  apply Forall_forall. intros l Hl. apply in_map_iff in Hl.
  destruct Hl as [cs [<- Hcs]].
  rewrite length_string_of_list_ascii.
  match type of Hcs with
  | In _ (wrap_chunks ?f ?i ?s ?ls ?c) =>
      assert (Hall := wrap_chunks_bound f i s)
  end.
  assert (H1 : (len [] < WIDTH)%Z) by (cbn; unfold WIDTH; lia).
  assert (H2 : (len (list_ascii_of_string indent) < WIDTH)%Z).
  { unfold len, WIDTH. rewrite length_list_ascii_of_string. lia. }
  match type of Hcs with
  | In _ (wrap_chunks _ _ _ _ ?c) =>
      specialize (Hall H1 H2 [] c (Forall_nil _))
  end.
  rewrite Forall_forall in Hall. specialize (Hall cs Hcs).
  unfold len, WIDTH in Hall. lia.
Qed.

End WrapFacts.

(** ** The lines of a text *)

Module LineFacts.

Lemma split_lines_aux_app (a b cur : string) :
  PyStr.split_lines_aux cur (a ++ PyStr.LF ++ b)
  = (PyStr.split_lines_aux cur a ++ PyStr.split_lines b)%list.
Proof.
  revert cur. induction a as [|c a IH]; intros cur.
  - reflexivity.
  - cbn [append PyStr.split_lines_aux].
    destruct (Ascii.eqb c (ascii_of_nat 10)).
    + cbn [app]. now rewrite IH.
    + apply IH.
Qed.

Lemma split_lines_app (a b : string) :
  PyStr.split_lines (a ++ PyStr.LF ++ b)
  = (PyStr.split_lines a ++ PyStr.split_lines b)%list.
Proof. apply split_lines_aux_app. Qed.

(** No line is longer than the text it is cut from. *)
Lemma split_lines_aux_bound (s cur : string) :
  Forall (fun l => String.length l <= String.length cur + String.length s)
         (PyStr.split_lines_aux cur s).
Proof.
  revert cur. induction s as [|c s IH]; intros cur.
  - cbn. constructor; [lia | constructor].
  - cbn [PyStr.split_lines_aux String.length].
    destruct (Ascii.eqb c (ascii_of_nat 10)).
    + constructor; [lia|].
      eapply Forall_impl; [|apply (IH "")]. cbn. intros l Hl. lia.
    + eapply Forall_impl; [|apply (IH (cur ++ String c ""))].
      cbn beta. intros l Hl. rewrite StrFacts.length_app in Hl.
      cbn in Hl. lia.
Qed.

Lemma split_lines_bound (n : nat) (s : string) :
  String.length s <= n ->
  Forall (fun l => String.length l <= n) (PyStr.split_lines s).
Proof.
  intros H. eapply Forall_impl; [|apply (split_lines_aux_bound s "")].
  cbn. intros l Hl. lia.
Qed.

(** Pieces of at most [n] characters joined by newlines give lines of at
    most [n] characters. *)
Lemma split_lines_join (n : nat) (pieces : list string) :
  Forall (fun p => String.length p <= n) pieces ->
  Forall (fun l => String.length l <= n)
         (PyStr.split_lines (PyStr.join PyStr.LF pieces)).
Proof.
  induction pieces as [|p [|q rest] IH]; intros H.
  - apply split_lines_bound. cbn. lia.
  - apply split_lines_bound. now inversion H.
  - change (PyStr.join PyStr.LF (p :: q :: rest))
      with (p ++ PyStr.LF ++ PyStr.join PyStr.LF (q :: rest)).
    rewrite split_lines_app. apply Forall_app. split.
    + apply split_lines_bound. now inversion H.
    + apply IH. now inversion H.
Qed.

Lemma join_cons_prefix (sep a x : string) (rest : list string) :
  a ++ PyStr.join sep (x :: rest) = PyStr.join sep ((a ++ x) :: rest).
Proof.
  destruct rest as [|y rest]; [reflexivity|].
  change (PyStr.join sep (x :: y :: rest))
    with (x ++ sep ++ PyStr.join sep (y :: rest)).
  change (PyStr.join sep ((a ++ x) :: y :: rest))
    with ((a ++ x) ++ sep ++ PyStr.join sep (y :: rest)).
  now rewrite StrFacts.app_assoc.
Qed.

End LineFacts.

(** ** Docstrings *)

Lemma length_TRIPLE : String.length TRIPLE = 3.
Proof. reflexivity. Qed.

(** A description that is not empty gives a block that opens with the
    indent and the delimiter and closes with the delimiter and a newline. *)
Theorem docstring_delimiters (text indent : string) :
  text <> "" ->
  exists middle,
    format_docstring text indent
    = (indent ++ TRIPLE) ++ middle ++ TRIPLE ++ PyStr.LF.
Proof.
  intros Hne. rewrite (format_docstring_shape text indent Hne). cbv zeta.
  destruct (77 <? String.length (indent ++ TRIPLE ++ TextWrap.fill indent text))%nat.
  - exists (TextWrap.fill indent text ++ PyStr.LF ++ indent).
    now rewrite !StrFacts.app_assoc.
  - exists (TextWrap.fill indent text). now rewrite !StrFacts.app_assoc.
Qed.

Lemma docstring_delimiters_witness :
  exists middle,
    format_docstring "A ModelName instance." INDENT
    = (INDENT ++ TRIPLE) ++ middle ++ TRIPLE ++ PyStr.LF.
Proof.
  apply (docstring_delimiters "A ModelName instance." INDENT).
  discriminate.
Defined.

Lemma opened_lines_fit (indent text : string) :
  String.length indent <= 7 ->
  Forall (fun l => String.length l <= 80)
         (PyStr.split_lines (indent ++ TRIPLE ++ TextWrap.fill indent text)).
Proof.
  intros Hindent. unfold TextWrap.fill.
  assert (Hfit := WrapFacts.wrap_lines_fit indent text ltac:(lia)).
  destruct (TextWrap.wrap indent text) as [|l1 rest].
  - apply LineFacts.split_lines_bound.
    rewrite !StrFacts.length_app, length_TRIPLE. cbn. lia.
  - rewrite !LineFacts.join_cons_prefix.
    apply LineFacts.split_lines_join.
    inversion Hfit as [|? ? H1 Hrest]; subst. constructor.
    + rewrite !StrFacts.length_app, length_TRIPLE. lia.
    + eapply Forall_impl; [|exact Hrest]. cbn beta. intros l Hl. lia.
Qed.

(** With an indent of at most seven characters, as the four spaces of a
    class body, no line of a formatted docstring is longer than 80
    characters. *)
Theorem docstring_lines_fit (text indent : string) :
  String.length indent <= 7 ->
  Forall (fun l => String.length l <= 80)
         (PyStr.split_lines (format_docstring text indent)).
Proof.
  intros Hindent. destruct text as [|c text'].
  - rewrite format_docstring_empty. apply LineFacts.split_lines_bound.
    simpl. lia.
  - rewrite (format_docstring_shape (String c text') indent
               ltac:(discriminate)).
    cbv zeta.
    set (opened := indent ++ TRIPLE ++ TextWrap.fill indent (String c text')).
    destruct (77 <? String.length opened)%nat eqn:E.
    + rewrite LineFacts.split_lines_app. apply Forall_app. split.
      * now apply opened_lines_fit.
      * apply LineFacts.split_lines_bound.
        rewrite !StrFacts.length_app, length_TRIPLE. cbn. lia.
    + apply Nat.ltb_ge in E.
      replace (opened ++ TRIPLE ++ PyStr.LF)
        with ((opened ++ TRIPLE) ++ PyStr.LF ++ "")
        by now rewrite StrFacts.app_assoc.
      rewrite LineFacts.split_lines_app. apply Forall_app. split.
      * apply LineFacts.split_lines_bound.
        rewrite StrFacts.length_app, length_TRIPLE. lia.
      * apply LineFacts.split_lines_bound. simpl. lia.
Qed.

Lemma docstring_lines_fit_witness :
  Forall (fun l => String.length l <= 80)
         (PyStr.split_lines
            (format_docstring
               "A ModelName instance.A ModelName instance.A ModelName instance."
               INDENT)).
Proof.
  apply (docstring_lines_fit
           "A ModelName instance.A ModelName instance.A ModelName instance."
           INDENT).
  cbn. lia.
Defined.

(** ** What the resolution reads and writes *)

(** The type and the default resolved for a field depend on the schema and
    the field name only, not on what the registry holds. *)
Theorem resolved_type_independent_of_registry (s : schema) :
  forall name defs1 defs2 type1 default1 out1 type2 default2 out2,
    parse_property s name defs1 = Ok (type1, default1, out1) ->
    parse_property s name defs2 = Ok (type2, default2, out2) ->
    type1 = type2 /\ default1 = default2.
Proof.
  induction s as [ty rf props items description default id_ IHprops IHitems]
    using schema_ind_nested.
  intros name defs1 defs2 t1 d1 o1 t2 d2 o2 H1 H2.
  set (s := mkSchema ty rf props items description default id_) in *.
  destruct (type_of s) as [type_|e] eqn:Hty.
  - destruct (type_cases type_)
      as [[py Hs] | [[Hs ->] | [[Hs ->] | (Hs & Hobj & Harr)]]].
    + rewrite (parse_property_simple s name defs1 type_ py Hty Hs) in H1.
      rewrite (parse_property_simple s name defs2 type_ py Hty Hs) in H2.
      inversion H1; inversion H2; subst. auto.
    + rewrite (parse_property_object s name defs1 Hty) in H1.
      rewrite (parse_property_object s name defs2 Hty) in H2.
      destruct (schema_as_string s (Some ("_" ++ name)) defs1);
        [|discriminate].
      destruct (schema_as_string s (Some ("_" ++ name)) defs2);
        [|discriminate].
      inversion H1; inversion H2; subst. auto.
    + destruct items as [item|].
      * rewrite (parse_property_array s item name defs1 Hty eq_refl) in H1.
        rewrite (parse_property_array s item name defs2 Hty eq_refl) in H2.
        destruct (parse_property item name defs1) as [[[ta da] oa]|e] eqn:Ea;
          [|discriminate].
        destruct (parse_property item name defs2) as [[[tb db] ob]|e] eqn:Eb;
          [|discriminate].
        destruct (IHitems item eq_refl _ _ _ _ _ _ _ _ _ Ea Eb) as [-> ->].
        inversion H1; inversion H2; subst. auto.
      * rewrite (parse_property_array_no_items s name defs1 Hty eq_refl)
          in H1.
        discriminate.
    + rewrite (parse_property_named s name defs1 type_ Hty Hs Hobj Harr)
        in H1.
      rewrite (parse_property_named s name defs2 type_ Hty Hs Hobj Harr)
        in H2.
      inversion H1; inversion H2; subst. auto.
  - apply type_of_raise in Hty. destruct Hty as [Hu _].
    rewrite (parse_property_untyped s name defs1 Hu) in H1. discriminate.
Qed.

Lemma resolved_type_independent_of_registry_witness :
  "List[str]" = "List[str]" /\ Some "'x'" = Some "'x'".
Proof.
  apply (resolved_type_independent_of_registry
           (Node.array (Node.typed_default "string" (PyStr "x"))) "foo"
           [] [("A", "text")] _ _ [] _ _ [("A", "text")]);
    reflexivity.
Defined.

(** Only object nodes write to the registry: when the resolution of a field
    reaches no node of type "object", the registry is returned as it was. *)
Theorem only_objects_touch_registry (s : schema) :
  forall name defs type_ default defs',
    (forall n, visits s n -> type_of n <> Ok "object") ->
    parse_property s name defs = Ok (type_, default, defs') ->
    defs' = defs.
Proof.
  induction s as [ty rf props items description default0 id_ IHprops IHitems]
    using schema_ind_nested.
  intros name defs t d defs' Hno H.
  set (s := mkSchema ty rf props items description default0 id_) in *.
  destruct (type_of s) as [type_|e] eqn:Hty.
  - destruct (type_cases type_)
      as [[py Hs] | [[Hs ->] | [[Hs ->] | (Hs & Hobj & Harr)]]].
    + rewrite (parse_property_simple s name defs type_ py Hty Hs) in H.
      now inversion H.
    + elim (Hno s (visits_here s)). exact Hty.
    + destruct items as [item|].
      * rewrite (parse_property_array s item name defs Hty eq_refl) in H.
        destruct (parse_property item name defs) as [[[t0 d0] o0]|e] eqn:E;
          [|discriminate].
        inversion H; subst.
        apply (IHitems item eq_refl _ _ _ _ _) with (2 := E).
        intros n Hv. apply Hno.
        now apply visits_items with (item := item).
      * rewrite (parse_property_array_no_items s name defs Hty eq_refl) in H.
        discriminate.
    + rewrite (parse_property_named s name defs type_ Hty Hs Hobj Harr) in H.
      now inversion H.
  - apply type_of_raise in Hty. destruct Hty as [Hu _].
    rewrite (parse_property_untyped s name defs Hu) in H. discriminate.
Qed.

Lemma only_objects_touch_registry_witness :
  [("A", "text")] = [("A", "text")].
Proof.
  apply (only_objects_touch_registry (Node.array (Node.ref "Other")) "foo"
           [("A", "text")] ("List[" ++ quoted "Other" ++ "]") None).
  - intros n Hv. inversion Hv as [| ? item ? _ Hitems Hv' | ? ? ? ? ? Hty];
      subst.
    + discriminate.
    + injection Hitems as <-.
      inversion Hv' as [| ? ? ? Hty' | ? ? ? ? ? Hty']; subst;
        discriminate.
    + discriminate.
  - reflexivity.
Defined.

Lemma class_id_not_empty (id_ class_name : option string)
    (properties : list property) :
  class_id id_ class_name properties <> "".
Proof.
  unfold class_id.
  destruct id_ as [[|c i]|], class_name as [[|c' n]|]; cbn; discriminate.
Qed.

Lemma emit_class_names_not_empty id_ class_name description properties defs :
  Forall (fun k => k <> "") (Dict.keys defs) ->
  Forall (fun k => k <> "")
         (Dict.keys (emit_class id_ class_name description properties defs)).
Proof.
  intros H. apply Forall_forall. intros k Hk.
  unfold emit_class in Hk. apply DictFacts.in_keys_set in Hk.
  destruct Hk as [-> | Hk].
  - apply class_id_not_empty.
  - rewrite Forall_forall in H. now apply H.
Qed.

(** No record is registered under an empty name: a schema with neither an
    "id" nor a name gets a name made up from its properties, which starts
    with the marker. *)
Theorem registry_names_not_empty (schemas : list (string * schema))
    (defs : model_defs) :
  SchemaParser schemas = Ok defs ->
  Forall (fun k => k <> "") (Dict.keys defs).
Proof.
  intros H.
  apply (parse_schemas_preserves
           (fun d => Forall (fun k => k <> "") (Dict.keys d))
           emit_class_names_not_empty schemas [] defs H).
  constructor.
Qed.

Lemma registry_names_not_empty_witness :
  Forall (fun k => k <> "")
         (Dict.keys
            [("_Foo", class_text "_Foo" None [("foo", "str", None)])]).
Proof.
  apply (registry_names_not_empty
           [("", Node.object [("foo", Node.typed "string")])]).
  reflexivity.
Defined.

(** ** The text written *)

Lemma join_ends_with_newline (sep : string) (l : list string) :
  l <> [] -> Forall ends_with_newline l ->
  ends_with_newline (PyStr.join sep l).
Proof.
  induction l as [|a [|b rest] IH]; intros Hne Hall.
  - congruence.
  - now inversion Hall.
  - change (PyStr.join sep (a :: b :: rest))
      with (a ++ sep ++ PyStr.join sep (b :: rest)).
    do 2 apply ends_with_newline_app.
    apply IH; [discriminate | now inversion Hall].
Qed.

(** For a document with at least one schema that parses, the text written
    ends with a newline. *)
Theorem written_text_ends_with_newline (schemas : list (string * schema))
    (fh : string) (defs : model_defs) :
  schemas <> [] -> SchemaParser schemas = Ok defs ->
  ends_with_newline (fst (write_models schemas fh)).
Proof.
  intros Hne H.
  assert (Hnl : Forall ends_with_newline (Dict.values defs)).
  { apply (parse_schemas_preserves
             (fun d => Forall ends_with_newline (Dict.values d))
             emit_class_ends_with_newline schemas [] defs H).
    constructor. }
  unfold write_models. rewrite H. cbn [fst]. apply ends_with_newline_app.
  apply join_ends_with_newline; [|exact Hnl].
  destruct schemas as [|[name s] rest]; [congruence|].
  unfold SchemaParser in H. cbn [parse_schemas] in H.
  destruct (schema_as_string s (Some name) []) as [defs1|e] eqn:E;
    [|discriminate].
  destruct (parse_schemas_keys_extend rest defs1 defs H) as [added Hk].
  unfold schema_as_string in E.
  destruct (parse_properties (properties_of s) [] [])
    as [[properties d]|e]; [|discriminate].
  inversion E; subst defs1. unfold emit_class in Hk.
  intros Hv. apply map_eq_nil in Hv. subst defs. cbn in Hk.
  symmetry in Hk. apply app_eq_nil in Hk. destruct Hk as [Hk _].
  destruct d as [|[k v] d]; cbn in Hk; [discriminate|].
  destruct (String.eqb _ k); discriminate.
Qed.

Lemma written_text_ends_with_newline_witness :
  ends_with_newline
    (fst (write_models [("A", Node.object []); ("B", Node.object [])] "")).
Proof.
  apply (written_text_ends_with_newline
           [("A", Node.object []); ("B", Node.object [])] ""
           [("A", class_text "A" None []); ("B", class_text "B" None [])]).
  - discriminate.
  - reflexivity.
Defined.

(** * The build as a sequence of assignments *)

Module ReplayFacts.

Lemma replay_app (log1 log2 : assignments) (defs : model_defs) :
  replay (log1 ++ log2)%list defs = replay log2 (replay log1 defs).
Proof. unfold replay. apply fold_left_app. Qed.

Lemma replay_one (k v : string) (defs : model_defs) :
  replay [(k, v)] defs = Dict.set k v defs.
Proof. reflexivity. Qed.

Lemma nodup_replay (log : assignments) :
  forall defs, NoDup (Dict.keys defs) -> NoDup (Dict.keys (replay log defs)).
Proof.
  induction log as [|[k v] log IH]; intros defs H; [exact H|].
  cbn [replay fold_left fst snd]. apply IH. now apply DictFacts.nodup_set.
Qed.

(** The entry of a name after the assignments is the text assigned to it
    last, or the entry it had when none was. *)
Lemma get_replay (name : string) (log : assignments) :
  forall defs,
    Dict.get name (replay log defs)
    = match last_assigned name log with
      | Some text => Some text
      | None => Dict.get name defs
      end.
Proof.
  induction log as [|[k v] log IH]; intros defs; [reflexivity|].
  cbn [replay fold_left fst snd last_assigned].
  change (fold_left (fun d kv => Dict.set (fst kv) (snd kv) d) log
                    (Dict.set k v defs))
    with (replay log (Dict.set k v defs)).
  rewrite IH. destruct (last_assigned name log); [reflexivity|].
  destruct (String.eqb name k) eqn:E.
  - apply String.eqb_eq in E. subst. apply DictFacts.get_set_same.
  - apply String.eqb_neq in E. now apply DictFacts.get_set_other.
Qed.

Lemma get_in_keys (name text : string) (defs : model_defs) :
  Dict.get name defs = Some text -> In name (Dict.keys defs).
Proof.
  intros H. destruct (in_dec string_dec name (Dict.keys defs)) as [Hin|Hn];
    [exact Hin|].
  apply DictFacts.get_none_not_in in Hn. congruence.
Qed.

End ReplayFacts.

(** ** [parse_property] makes the assignments of [resolve] *)

Lemma resolve_untyped (s : schema) (name : string) :
  untyped s -> resolve s name = Raise (KeyError "$ref").
Proof.
  destruct s as [ty rf props items description default id_].
  intros [Hty Hrf]. simpl in Hty, Hrf. subst. reflexivity.
Qed.

Lemma resolve_simple (s : schema) (name type_ py_type : string) :
  type_of s = Ok type_ -> simple_types type_ = Some py_type ->
  resolve s name = Ok (py_type, render_default (s_default s), []).
Proof.
  destruct s as [ty rf props items description default id_].
  rewrite type_of_eq. intros Hty Hsimple.
  cbn [resolve s_default]. now rewrite Hty, Hsimple.
Qed.

Lemma resolve_object (s : schema) (name : string) :
  type_of s = Ok "object" ->
  resolve s name
  = match schema_assignments s (Some ("_" ++ name)) with
    | Raise e => Raise e
    | Ok log => Ok (quoted ("_" ++ name), None, log)
    end.
Proof.
  destruct s as [ty rf props items description default id_].
  rewrite type_of_eq. intros Hty.
  cbn [resolve]. rewrite Hty.
  change (simple_types "object") with (@None string).
  change (String.eqb "object" "object") with true. cbv iota.
  unfold schema_assignments, properties_of.
  cbn [s_properties s_id s_description].
  destruct props as [plist|]; [|reflexivity].
  match goal with
  | |- ?loop plist _ _ = _ =>
      assert (Hloop : forall ps acc log,
                 loop ps acc log
                 = match
                     match resolve_properties ps acc log with
                     | Ok (properties, log') =>
                         Ok (log' ++ [class_assignment id_
                                        (Some ("_" ++ name)%string)
                                        description properties])%list
                     | Raise e => Raise e
                     end
                   with
                   | Ok log' => Ok (quoted ("_" ++ name), None, log')
                   | Raise e => Raise e
                   end)
  end.
  { induction ps as [|[pname pschema] rest IH]; intros acc log.
    - reflexivity.
    - cbn [resolve_properties].
      destruct (resolve pschema (valid_property_name pname))
        as [[[prop_type pdefault] log1]|e]; [apply IH | reflexivity]. }
  apply Hloop.
Qed.

Lemma resolve_array (s item : schema) (name : string) :
  type_of s = Ok "array" -> s_items s = Some item ->
  resolve s name
  = match resolve item name with
    | Raise e => Raise e
    | Ok (py_type, default, log) =>
        Ok ("List[" ++ py_type ++ "]", default, log)
    end.
Proof.
  destruct s as [ty rf props items description default id_].
  rewrite type_of_eq. cbn [s_items]. intros Hty Hitems. subst items.
  cbn [resolve]. rewrite Hty. reflexivity.
Qed.

Lemma resolve_array_no_items (s : schema) (name : string) :
  type_of s = Ok "array" -> s_items s = None ->
  resolve s name = Raise (KeyError "items").
Proof.
  destruct s as [ty rf props items description default id_].
  rewrite type_of_eq. cbn [s_items]. intros Hty Hitems. subst items.
  cbn [resolve]. rewrite Hty. reflexivity.
Qed.

Lemma resolve_named (s : schema) (name type_ : string) :
  type_of s = Ok type_ -> simple_types type_ = None ->
  type_ <> "object" -> type_ <> "array" ->
  resolve s name = Ok (quoted type_, None, []).
Proof.
  destruct s as [ty rf props items description default id_].
  rewrite type_of_eq. intros Hty Hsimple Hobj Harr.
  cbn [resolve]. rewrite Hty, Hsimple.
  apply String.eqb_neq in Hobj, Harr. now rewrite Hobj, Harr.
Qed.

Lemma parse_properties_replays (ps : list (string * schema)) :
  Forall (fun kp => replays (snd kp)) ps ->
  forall acc log defs,
    parse_properties ps acc (replay log defs)
    = match resolve_properties ps acc log with
      | Raise e => Raise e
      | Ok (properties, log') => Ok (properties, replay log' defs)
      end.
Proof.
  induction 1 as [|[pname p] rest Hp Hrest IH]; intros acc log defs.
  - reflexivity.
  - cbn [parse_properties resolve_properties]. cbn [snd] in Hp.
    rewrite (Hp (valid_property_name pname) (replay log defs)).
    destruct (resolve p (valid_property_name pname))
      as [[[prop_type pdefault] log1]|e]; [|reflexivity].
    rewrite <- ReplayFacts.replay_app. apply IH.
Qed.

Lemma parse_property_replays (s : schema) : replays s.
Proof.
  induction s as [ty rf props items description default id_ IHprops IHitems]
    using schema_ind_nested.
  intros name defs.
  set (s := mkSchema ty rf props items description default id_) in *.
  destruct (type_of s) as [type_|e] eqn:Hty.
  - destruct (type_cases type_)
      as [[py Hs] | [[Hs ->] | [[Hs ->] | (Hs & Hobj & Harr)]]].
    + rewrite (parse_property_simple s name defs type_ py Hty Hs).
      now rewrite (resolve_simple s name type_ py Hty Hs).
    + rewrite (parse_property_object s name defs Hty).
      rewrite (resolve_object s name Hty).
      unfold schema_as_string, schema_assignments, properties_of.
      cbn [s_properties s_id s_description s].
      assert (Hps : Forall (fun kp => replays (snd kp))
                           (match props with Some l => l | None => [] end)).
      { destruct props as [plist|]; [exact (IHprops plist eq_refl)|].
        constructor. }
      pose proof (parse_properties_replays _ Hps [] [] defs) as Heq.
      change (replay [] defs) with defs in Heq. rewrite Heq.
      destruct (resolve_properties
                  (match props with Some l => l | None => [] end) [] [])
        as [[properties log]|e]; [|reflexivity].
      rewrite ReplayFacts.replay_app. reflexivity.
    + destruct items as [item|].
      * rewrite (parse_property_array s item name defs Hty eq_refl).
        rewrite (resolve_array s item name Hty eq_refl).
        rewrite (IHitems item eq_refl name defs).
        destruct (resolve item name) as [[[t d] log]|e]; reflexivity.
      * rewrite (parse_property_array_no_items s name defs Hty eq_refl).
        now rewrite (resolve_array_no_items s name Hty eq_refl).
    + rewrite (parse_property_named s name defs type_ Hty Hs Hobj Harr).
      now rewrite (resolve_named s name type_ Hty Hs Hobj Harr).
  - apply type_of_raise in Hty. destruct Hty as [Hu _].
    rewrite (parse_property_untyped s name defs Hu).
    now rewrite (resolve_untyped s name Hu).
Qed.

Lemma schema_as_string_replays (s : schema) (class_name : option string)
    (defs : model_defs) :
  schema_as_string s class_name defs
  = match schema_assignments s class_name with
    | Raise e => Raise e
    | Ok log => Ok (replay log defs)
    end.
Proof.
  unfold schema_as_string, schema_assignments.
  assert (Hps : Forall (fun kp => replays (snd kp)) (properties_of s)).
  { apply Forall_forall. intros kp _. apply parse_property_replays. }
  pose proof (parse_properties_replays _ Hps [] [] defs) as Heq.
  change (replay [] defs) with defs in Heq. rewrite Heq.
  destruct (resolve_properties (properties_of s) [] [])
    as [[properties log]|e]; [|reflexivity].
  now rewrite ReplayFacts.replay_app.
Qed.

Lemma parse_schemas_replays (schemas : list (string * schema)) :
  forall defs,
    parse_schemas schemas defs
    = match document_assignments schemas with
      | Raise e => Raise e
      | Ok log => Ok (replay log defs)
      end.
Proof.
  induction schemas as [|[name s] rest IH]; intros defs.
  - reflexivity.
  - cbn [parse_schemas document_assignments].
    rewrite schema_as_string_replays.
    destruct (schema_assignments s (Some name)) as [log|e]; [|reflexivity].
    rewrite IH.
    destruct (document_assignments rest) as [log'|e]; [|reflexivity].
    now rewrite ReplayFacts.replay_app.
Qed.

(** ** Collisions of names *)

Lemma last_assigned_in (k v : string) (log : assignments) :
  In (k, v) log -> exists text, last_assigned k log = Some text.
Proof.
  induction log as [|[k' v'] log IH]; intros Hin; [contradiction|].
  cbn [last_assigned]. destruct Hin as [Heq|Hin].
  - inversion Heq; subst. destruct (last_assigned k log); [eauto|].
    rewrite String.eqb_refl. eauto.
  - destruct (IH Hin) as [text ->]. eauto.
Qed.

(** The text assigned last to a name is that of the last assignment to the
    name in the log. *)
Lemma last_assigned_split (k text : string) (log : assignments) :
  last_assigned k log = Some text ->
  exists log1 log2,
    log = (log1 ++ (k, text) :: log2)%list
    /\ forall v, ~ In (k, v) log2.
Proof.
  induction log as [|[k' v'] log IH]; intros H; [discriminate|].
  cbn [last_assigned] in H.
  destruct (last_assigned k log) as [t|] eqn:E.
  - inversion H; subst t. destruct (IH eq_refl) as (l1 & l2 & -> & Hl2).
    exists ((k', v') :: l1), l2. split; [reflexivity | exact Hl2].
  - destruct (String.eqb k k') eqn:Ek; [|discriminate].
    apply String.eqb_eq in Ek. inversion H; subst.
    exists [], log. split; [reflexivity|].
    intros v Hin. destruct (last_assigned_in _ _ _ Hin) as [t Ht]. congruence.
Qed.

(** C8: the records of a build, top-level and nested, are stored by the
    assignments [self.model_defs[id_] = result] in the order the build
    makes them. Whether names collide plays no part in whether the build
    completes: when the resolution itself succeeds the build returns the
    registry obtained by making the assignments in order. Each assignment
    stores its text under its name and leaves the entries of all other
    names as they were; in the final registry every name that was assigned
    has exactly one entry, which holds the text of the last assignment to
    that name. *)
Theorem name_collision_overwrites (schemas : list (string * schema))
    (log : assignments) :
  document_assignments schemas = Ok log ->
  exists defs,
    SchemaParser schemas = Ok defs
    /\ defs = replay log []
    /\ (forall name, Dict.get name defs = last_assigned name log)
    /\ (forall k v,
          In (k, v) log ->
          exists text log1 log2,
            log = (log1 ++ (k, text) :: log2)%list
            /\ (forall v', ~ In (k, v') log2)
            /\ Dict.get k defs = Some text
            /\ count_occ string_dec (Dict.keys defs) k = 1)
    /\ (forall log1 k v log2,
          log = (log1 ++ (k, v) :: log2)%list ->
          Dict.get k (replay (log1 ++ [(k, v)])%list []) = Some v
          /\ forall name,
               name <> k ->
               Dict.get name (replay (log1 ++ [(k, v)])%list [])
               = Dict.get name (replay log1 [])).
Proof.
  intros Hlog. exists (replay log []).
  assert (Hget : forall name,
             Dict.get name (replay log []) = last_assigned name log).
  { intros name. rewrite ReplayFacts.get_replay.
    now destruct (last_assigned name log). }
  split.
  { unfold SchemaParser. rewrite parse_schemas_replays. now rewrite Hlog. }
  split; [reflexivity|]. split; [exact Hget|]. split.
  - intros k v Hin.
    destruct (last_assigned_in k v log Hin) as [text Ht].
    destruct (last_assigned_split k text log Ht) as (log1 & log2 & Heq & Hl2).
    exists text, log1, log2. split; [exact Heq|]. split; [exact Hl2|].
    assert (Hk : Dict.get k (replay log []) = Some text)
      by now rewrite Hget.
    split; [exact Hk|].
    apply DictFacts.count_occ_nodup.
    + apply ReplayFacts.nodup_replay. constructor.
    + exact (ReplayFacts.get_in_keys _ _ _ Hk).
  - intros log1 k v log2 _.
    rewrite ReplayFacts.replay_app, ReplayFacts.replay_one. split.
    + apply DictFacts.get_set_same.
    + intros name Hne. now apply DictFacts.get_set_other.
Qed.

Lemma name_collision_overwrites_witness :
  exists defs,
    SchemaParser
      [ ("A", Node.object [("foo", Node.object [("x", Node.typed "string")])]);
        ("B", Node.object [("foo", Node.object [("y", Node.typed "integer")])]) ]
    = Ok defs
    /\ Dict.get "_foo" defs
       = Some (class_text "_foo" None [("y", "int", None)])
    /\ Dict.keys defs = ["_foo"; "A"; "B"].
Proof.
  destruct (name_collision_overwrites
              [ ("A", Node.object
                        [("foo", Node.object [("x", Node.typed "string")])]);
                ("B", Node.object
                        [("foo", Node.object [("y", Node.typed "integer")])]) ]
              [ ("_foo", class_text "_foo" None [("x", "str", None)]);
                ("A", class_text "A" None [("foo", quoted "_foo", None)]);
                ("_foo", class_text "_foo" None [("y", "int", None)]);
                ("B", class_text "B" None [("foo", quoted "_foo", None)]) ]
              eq_refl)
    as (defs & Hok & Hdefs & Hget & _).
  exists defs. split; [exact Hok|]. split.
  - rewrite Hget. reflexivity.
  - rewrite Hdefs. reflexivity.
Defined.

(** * The separation of the definitions written *)

Module EndFacts.

Ltac not_newline :=
  let H := fresh in intros H; vm_compute in H; discriminate H.

Lemma ewo_char (c : ascii) :
  c <> NEWLINE -> ends_without_newline (String c "").
Proof. intros H. exists "", c. split; [reflexivity | exact H]. Qed.

Lemma ewo_app (a b : string) :
  ends_without_newline b -> ends_without_newline (a ++ b).
Proof.
  intros (body & c & -> & Hc). exists (a ++ body), c.
  split; [now rewrite StrFacts.app_assoc | exact Hc].
Qed.

Lemma ewo_cons (c : ascii) (s : string) :
  ends_without_newline s -> ends_without_newline (String c s).
Proof. apply (ewo_app (String c "") s). Qed.

(** A text given by its characters, the last of which is not a newline. *)
Ltac ewo_literal :=
  repeat first [ apply ewo_char; not_newline | apply ewo_cons ].

Lemma one_newline_intro (body : string) :
  ends_without_newline body -> ends_with_one_newline (body ++ PyStr.LF).
Proof. intros H. now exists body. Qed.

Lemma one_newline_app (a b : string) :
  ends_with_one_newline b -> ends_with_one_newline (a ++ b).
Proof.
  intros (body & -> & Hb). exists (a ++ body).
  split; [now rewrite StrFacts.app_assoc | now apply ewo_app].
Qed.

Lemma one_newline_join (l : list string) :
  l <> [] -> Forall ends_with_one_newline l ->
  ends_with_one_newline (PyStr.join "" l).
Proof.
  induction l as [|a [|b rest] IH]; intros Hne Hall.
  - congruence.
  - now inversion Hall.
  - change (PyStr.join "" (a :: b :: rest))
      with (a ++ "" ++ PyStr.join "" (b :: rest)).
    do 2 apply one_newline_app.
    apply IH; [discriminate | now inversion Hall].
Qed.

Lemma ewo_TRIPLE : ends_without_newline TRIPLE.
Proof. unfold TRIPLE, DQUOTE. cbn [append]. ewo_literal. Qed.

Lemma ewo_quoted (name : string) : ends_without_newline (quoted name).
Proof.
  unfold quoted. do 2 apply ewo_app. unfold DQUOTE. ewo_literal.
Qed.

Lemma ewo_simple_type (type_ py_type : string) :
  simple_types type_ = Some py_type -> ends_without_newline py_type.
Proof.
  unfold simple_types. intros H.
  repeat match type of H with
         | (if ?c then _ else _) = _ =>
             destruct c; [inversion H; subst; ewo_literal|]
         end.
  discriminate.
Qed.

Lemma ewo_uint (d : Decimal.uint) :
  d = Decimal.Nil \/ ends_without_newline (NilEmpty.string_of_uint d).
Proof.
  induction d as [|d IH|d IH|d IH|d IH|d IH|d IH|d IH|d IH|d IH|d IH];
    [now left|..];
    right; cbn [NilEmpty.string_of_uint];
    (destruct IH as [->|IH];
     [cbn [NilEmpty.string_of_uint]; ewo_literal | now apply ewo_cons]).
Qed.

Lemma ewo_nilzero_uint (d : Decimal.uint) :
  ends_without_newline (NilZero.string_of_uint d).
Proof.
  destruct (ewo_uint d) as [->|H]; [cbn; ewo_literal|].
  destruct d; [cbn; ewo_literal | exact H ..].
Qed.

(** [repr] never ends with a newline. *)
Lemma ewo_repr (v : pyvalue) : ends_without_newline (PyRepr.repr v).
Proof.
  destruct v as [|[|]|z|s]; cbn [PyRepr.repr]; try ewo_literal.
  - unfold PyRepr.repr_int, NilZero.string_of_int.
    destruct (Z.to_int z) as [d|d].
    + apply ewo_nilzero_uint.
    + apply ewo_cons. apply ewo_nilzero_uint.
  - unfold PyRepr.repr_str. cbv zeta. apply ewo_app. apply ewo_char.
    unfold PyRepr.quote_of.
    destruct (PyRepr.contains PyRepr.SQUOTE s
              && negb (PyRepr.contains (ascii_of_nat 34) s));
      not_newline.
Qed.

Lemma render_default_closed (default : option pyvalue) (d : string) :
  render_default default = Some d -> ends_without_newline d.
Proof.
  destruct default as [v|]; [|discriminate].
  destruct v as [|b|z|s]; cbn [render_default]; intros H;
    [discriminate | | | ]; injection H as <-.
  - apply (ewo_repr (PyBool b)).
  - apply (ewo_repr (PyInt z)).
  - apply (ewo_repr (PyStr s)).
Qed.

(** The line of a closed property ends with one newline. *)
Lemma property_line_one_newline (p : property) :
  closed_property p -> ends_with_one_newline (property_line p).
Proof.
  destruct p as [[name type_] default]. intros [Hty Hd].
  cbn [fst snd] in Hty, Hd. unfold property_line. cbv beta iota zeta.
  apply one_newline_app. apply one_newline_intro.
  destruct default as [d|]; [|now do 2 apply ewo_app].
  destruct d as [|c d]; cbn [PyStr.truthy]; [now do 2 apply ewo_app|].
  do 4 apply ewo_app. apply (Hd _ eq_refl). discriminate.
Qed.

Lemma format_docstring_one_newline (text indent : string) :
  format_docstring text indent = ""
  \/ ends_with_one_newline (format_docstring text indent).
Proof.
  unfold format_docstring. destruct (PyStr.truthy text); [right | now left].
  cbv zeta.
  match goal with |- context [if ?c then _ else _] => destruct c end.
  - do 3 apply one_newline_app. apply one_newline_intro. apply ewo_TRIPLE.
  - apply one_newline_app. apply one_newline_intro. apply ewo_TRIPLE.
Qed.

Lemma one_newline_not_empty (text : string) :
  ends_with_one_newline text -> text <> "".
Proof. intros (body & -> & _). destruct body; discriminate. Qed.

(** The class text of closed properties ends with one newline and starts
    with the letter of "class". *)
Lemma class_text_one_newline (id_ : string) (description : option string)
    (properties : list property) :
  Forall closed_property properties ->
  ends_with_one_newline (class_text id_ description properties).
Proof.
  intros Hclosed. unfold class_text. cbv zeta.
  set (docstring := format_docstring _ INDENT).
  destruct properties as [|p rest].
  - destruct (format_docstring_one_newline
                (match description with Some t => t | None => "" end) INDENT)
      as [He|He]; fold docstring in He.
    + rewrite He. cbn [PyStr.truthy map PyStr.join].
      do 2 apply one_newline_app. apply one_newline_intro. ewo_literal.
    + assert (Ht : PyStr.truthy docstring = true).
      { apply one_newline_not_empty in He.
        destruct docstring; [congruence | reflexivity]. }
      rewrite Ht. cbn [map PyStr.join]. rewrite StrFacts.app_empty_r.
      do 4 apply one_newline_app. exact He.
  - apply one_newline_app. apply one_newline_join.
    + discriminate.
    + apply Forall_forall. intros l Hl. apply in_map_iff in Hl.
      destruct Hl as [q [<- Hq]]. apply property_line_one_newline.
      rewrite Forall_forall in Hclosed. now apply Hclosed.
Qed.

Lemma class_text_starts (id_ : string) (description : option string)
    (properties : list property) :
  starts_without_newline (class_text id_ description properties).
Proof.
  destruct (class_text_body id_ description properties) as (body & -> & _).
  unfold class_header. cbn [append].
  eexists. eexists. split; [reflexivity | not_newline].
Qed.

End EndFacts.

(** ** Every class text of a build is separable *)

Lemma class_assignment_separable id_ class_name description properties :
  Forall closed_property properties ->
  separable (snd (class_assignment id_ class_name description properties)).
Proof.
  intros H. unfold class_assignment. cbn [snd]. split.
  - now apply EndFacts.class_text_one_newline.
  - apply EndFacts.class_text_starts.
Qed.

Lemma resolve_properties_closed (ps : list (string * schema)) :
  Forall (fun kp =>
            forall name type_ default log,
              resolve (snd kp) name = Ok (type_, default, log) ->
              closed_property (name, type_, default)
              /\ Forall (fun kv => separable (snd kv)) log) ps ->
  forall acc log properties log',
    Forall closed_property acc ->
    Forall (fun kv => separable (snd kv)) log ->
    resolve_properties ps acc log = Ok (properties, log') ->
    Forall closed_property properties
    /\ Forall (fun kv => separable (snd kv)) log'.
Proof.
  induction 1 as [|[pname p] rest Hp Hrest IH];
    intros acc log properties log' Hacc Hlog H.
  - inversion H; subst. auto.
  - cbn [resolve_properties] in H. cbn [snd] in Hp.
    destruct (resolve p (valid_property_name pname))
      as [[[prop_type pdefault] log1]|e] eqn:E; [|discriminate].
    destruct (Hp _ _ _ _ E) as [Hc Hl].
    apply (IH _ _ _ _) with (3 := H).
    + apply Forall_app. split; [exact Hacc | now constructor].
    + apply Forall_app. now split.
Qed.

Lemma resolve_closed (s : schema) :
  forall name type_ default log,
    resolve s name = Ok (type_, default, log) ->
    closed_property (name, type_, default)
    /\ Forall (fun kv => separable (snd kv)) log.
Proof.
  induction s as [ty rf props items description default0 id_ IHprops IHitems]
    using schema_ind_nested.
  intros name t d log H.
  set (s := mkSchema ty rf props items description default0 id_) in *.
  destruct (type_of s) as [type_|e] eqn:Hty.
  - destruct (type_cases type_)
      as [[py Hs] | [[Hs ->] | [[Hs ->] | (Hs & Hobj & Harr)]]].
    + rewrite (resolve_simple s name type_ py Hty Hs) in H.
      inversion H; subst. split; [|constructor]. split; cbn [fst snd].
      * exact (EndFacts.ewo_simple_type _ _ Hs).
      * intros x Hx _. exact (EndFacts.render_default_closed _ _ Hx).
    + rewrite (resolve_object s name Hty) in H.
      unfold schema_assignments, properties_of in H.
      cbn [s_properties s_id s_description s] in H.
      destruct (resolve_properties
                  (match props with Some l => l | None => [] end) [] [])
        as [[properties lg]|e] eqn:E; [|discriminate].
      inversion H; subst. split.
      * split; cbn [fst snd]; [apply EndFacts.ewo_quoted | discriminate].
      * assert (Hps : Forall (fun kp =>
                          forall name type_ default log,
                            resolve (snd kp) name = Ok (type_, default, log) ->
                            closed_property (name, type_, default)
                            /\ Forall (fun kv => separable (snd kv)) log)
                        (match props with Some l => l | None => [] end)).
        { destruct props as [plist|]; [exact (IHprops plist eq_refl)|].
          constructor. }
        destruct (resolve_properties_closed _ Hps [] [] _ _
                    (Forall_nil _) (Forall_nil _) E) as [Hc Hl].
        apply Forall_app. split; [exact Hl|]. constructor; [|constructor].
        now apply class_assignment_separable.
    + destruct items as [item|].
      * rewrite (resolve_array s item name Hty eq_refl) in H.
        destruct (resolve item name) as [[[t0 d0] lg]|e] eqn:E;
          [|discriminate].
        inversion H; subst.
        destruct (IHitems item eq_refl _ _ _ _ E) as [[Hc1 Hc2] Hl].
        cbn [fst snd] in Hc1, Hc2. split; [|exact Hl].
        split; cbn [fst snd]; [|exact Hc2].
        change (ends_without_newline ("List[" ++ t0 ++ "]")).
        do 2 apply EndFacts.ewo_app. EndFacts.ewo_literal.
      * rewrite (resolve_array_no_items s name Hty eq_refl) in H.
        discriminate.
    + rewrite (resolve_named s name type_ Hty Hs Hobj Harr) in H.
      inversion H; subst. split; [|constructor].
      split; cbn [fst snd]; [apply EndFacts.ewo_quoted | discriminate].
  - apply type_of_raise in Hty. destruct Hty as [Hu _].
    rewrite (resolve_untyped s name Hu) in H. discriminate.
Qed.

Lemma schema_assignments_separable (s : schema) (class_name : option string)
    (log : assignments) :
  schema_assignments s class_name = Ok log ->
  Forall (fun kv => separable (snd kv)) log.
Proof.
  unfold schema_assignments.
  destruct (resolve_properties (properties_of s) [] [])
    as [[properties lg]|e] eqn:E; [|discriminate].
  intros H. inversion H; subst.
  assert (Hps : Forall (fun kp =>
                    forall name type_ default log,
                      resolve (snd kp) name = Ok (type_, default, log) ->
                      closed_property (name, type_, default)
                      /\ Forall (fun kv => separable (snd kv)) log)
                  (properties_of s)).
  { apply Forall_forall. intros kp _. apply resolve_closed. }
  destruct (resolve_properties_closed _ Hps [] [] _ _
              (Forall_nil _) (Forall_nil _) E) as [Hc Hl].
  apply Forall_app. split; [exact Hl|]. constructor; [|constructor].
  now apply class_assignment_separable.
Qed.

Lemma document_assignments_separable (schemas : list (string * schema)) :
  forall log,
    document_assignments schemas = Ok log ->
    Forall (fun kv => separable (snd kv)) log.
Proof.
  induction schemas as [|[name s] rest IH]; intros log H.
  - inversion H. constructor.
  - cbn [document_assignments] in H.
    destruct (schema_assignments s (Some name)) as [lg|e] eqn:E;
      [|discriminate].
    destruct (document_assignments rest) as [lg'|e]; [|discriminate].
    inversion H; subst. apply Forall_app. split.
    + exact (schema_assignments_separable _ _ _ E).
    + now apply IH.
Qed.

Lemma replay_values_forall (P : string -> Prop) (log : assignments) :
  Forall (fun kv => P (snd kv)) log ->
  forall defs,
    Forall P (Dict.values defs) -> Forall P (Dict.values (replay log defs)).
Proof.
  induction 1 as [|[k v] log Hkv Hlog IH]; intros defs Hdefs; [exact Hdefs|].
  cbn [replay fold_left fst snd]. apply IH.
  now apply values_set_forall.
Qed.

(** In the registry of a successful build every class text starts with a
    character that is not a newline and ends with one newline. *)
Lemma SchemaParser_separable (schemas : list (string * schema))
    (defs : model_defs) :
  SchemaParser schemas = Ok defs -> Forall separable (Dict.values defs).
Proof.
  unfold SchemaParser. rewrite (parse_schemas_replays schemas []).
  destruct (document_assignments schemas) as [log|e] eqn:E; [|discriminate].
  intros H. inversion H; subst.
  apply replay_values_forall; [|constructor].
  exact (document_assignments_separable schemas log E).
Qed.

(** ** The lines around a separation *)

Lemma split_lines_aux_not_nil (s cur : string) :
  PyStr.split_lines_aux cur s <> [].
Proof.
  revert cur. induction s as [|c s IH]; intros cur.
  - discriminate.
  - cbn [PyStr.split_lines_aux].
    destruct (Ascii.eqb c (ascii_of_nat 10)); [discriminate | apply IH].
Qed.

Lemma last_line_not_empty (text : string) :
  ends_without_newline text ->
  last (PyStr.split_lines text) "" <> "".
Proof.
  intros (body & c & -> & Hc). unfold PyStr.split_lines.
  assert (Haux : forall cur,
             last (PyStr.split_lines_aux cur (body ++ String c "")) ""
             <> ""); [|apply Haux].
  induction body as [|x body IH]; intros cur.
  - cbn [append PyStr.split_lines_aux].
    destruct (Ascii.eqb c (ascii_of_nat 10)) eqn:E.
    + apply Ascii.eqb_eq in E. contradiction.
    + cbn. destruct cur; discriminate.
  - cbn [append PyStr.split_lines_aux].
    destruct (Ascii.eqb x (ascii_of_nat 10)); [|apply IH].
    specialize (IH "").
    destruct (PyStr.split_lines_aux "" (body ++ String c "")) as [|l ls] eqn:E.
    + now apply split_lines_aux_not_nil in E.
    + exact IH.
Qed.

Lemma first_line_prefix (s cur : string) :
  exists t, hd "" (PyStr.split_lines_aux cur s) = cur ++ t.
Proof.
  revert cur. induction s as [|c s IH]; intros cur.
  - exists "". cbn [PyStr.split_lines_aux hd].
    symmetry. apply StrFacts.app_empty_r.
  - cbn [PyStr.split_lines_aux].
    destruct (Ascii.eqb c (ascii_of_nat 10)).
    + exists "". cbn [hd]. symmetry. apply StrFacts.app_empty_r.
    + destruct (IH (cur ++ String c "")) as [t ->].
      exists (String c t). apply StrFacts.app_assoc.
Qed.

Lemma first_line_not_empty (text : string) :
  starts_without_newline text ->
  hd "" (PyStr.split_lines text) <> "".
Proof.
  intros (c & rest & -> & Hc). unfold PyStr.split_lines.
  cbn [PyStr.split_lines_aux].
  destruct (Ascii.eqb c (ascii_of_nat 10)) eqn:E.
  - apply Ascii.eqb_eq in E. contradiction.
  - destruct (first_line_prefix rest ("" ++ String c "")) as [t ->].
    discriminate.
Qed.

(** C7, as amended: the writer emits the textual definitions of the
    registry in its insertion order, joined by two newline characters.
    Every definition ends with exactly one newline of its own and starts
    with a character that is not a newline, so between two consecutive
    definitions the lines of the text written are: the last line of the
    first, which is not empty, then exactly two empty lines, then the first
    line of the second, which is not empty. *)
Theorem writer_joins_definitions (schemas : list (string * schema))
    (fh : string) (defs : model_defs) :
  SchemaParser schemas = Ok defs ->
  write_models schemas fh
  = (fh ++ PyStr.join (PyStr.LF ++ PyStr.LF) (Dict.values defs), None)
  /\ (forall l1 d1 d2 l2,
        Dict.values defs = (l1 ++ d1 :: d2 :: l2)%list ->
        exists before body after,
          d1 = body ++ PyStr.LF
          /\ fst (write_models schemas fh)
             = (before ++ body) ++ PyStr.LF ++ PyStr.LF ++ PyStr.LF
                                ++ (d2 ++ after)
          /\ PyStr.split_lines (fst (write_models schemas fh))
             = (PyStr.split_lines (before ++ body) ++ [""; ""]
                ++ PyStr.split_lines (d2 ++ after))%list
          /\ last (PyStr.split_lines (before ++ body)) "" <> ""
          /\ hd "" (PyStr.split_lines (d2 ++ after)) <> "").
Proof.
  intros H.
  assert (Hw : write_models schemas fh
               = (fh ++ PyStr.join (PyStr.LF ++ PyStr.LF) (Dict.values defs),
                  None))
    by (unfold write_models; now rewrite H).
  split; [exact Hw|].
  intros l1 d1 d2 l2 Hv.
  pose proof (SchemaParser_separable schemas defs H) as Hsep.
  rewrite Hv in Hsep. rewrite Forall_forall in Hsep.
  destruct (Hsep d1) as [(body & -> & Hbody) _];
    [apply in_or_app; right; now left|].
  destruct (Hsep d2) as [_ (c & rest & -> & Hc)];
    [apply in_or_app; right; right; now left|].
  destruct (join_consecutive (PyStr.LF ++ PyStr.LF) l1
              (body ++ PyStr.LF) (String c rest) l2)
    as (before & after & Hj).
  exists (fh ++ before), body, after.
  assert (Hout : fst (write_models schemas fh)
                 = ((fh ++ before) ++ body) ++ PyStr.LF ++ PyStr.LF
                     ++ PyStr.LF ++ (String c rest ++ after)).
  { rewrite Hw. cbn [fst]. rewrite Hv, Hj.
    now rewrite !StrFacts.app_assoc. }
  split; [reflexivity|]. split; [exact Hout|]. split.
  - rewrite Hout. rewrite LineFacts.split_lines_app.
    change (PyStr.LF ++ PyStr.LF ++ String c rest ++ after)
      with ("" ++ PyStr.LF ++ "" ++ PyStr.LF ++ (String c rest ++ after)).
    now rewrite !LineFacts.split_lines_app.
  - split.
    + apply last_line_not_empty. now apply EndFacts.ewo_app.
    + apply first_line_not_empty. exists c, (rest ++ after). now split.
Qed.

Lemma writer_joins_definitions_witness :
  write_models [("A", Node.object []); ("B", Node.object [])] ""
  = ("" ++ PyStr.join (PyStr.LF ++ PyStr.LF)
             (Dict.values [ ("A", class_text "A" None []);
                            ("B", class_text "B" None []) ]), None).
Proof.
  apply (proj1 (writer_joins_definitions
                  [("A", Node.object []); ("B", Node.object [])] ""
                  [ ("A", class_text "A" None []);
                    ("B", class_text "B" None []) ] eq_refl)).
Defined.

(** * Documents that cannot be built *)

Lemma parse_schemas_fails (schemas : list (string * schema)) (name : string)
    (s : schema) :
  In (name, s) schemas ->
  (forall class_name defs, exists e,
      schema_as_string s class_name defs = Raise e) ->
  forall defs, exists e, parse_schemas schemas defs = Raise e.
Proof.
  intros Hin Hfail.
  induction schemas as [|[name0 s0] rest IH]; intros defs; [contradiction|].
  cbn [parse_schemas].
  destruct (schema_as_string s0 (Some name0) defs) as [defs1|e] eqn:E;
    [|eauto].
  destruct Hin as [Heq|Hin].
  - inversion Heq; subst.
    destruct (Hfail (Some name) defs) as [e He]. congruence.
  - now apply IH.
Qed.

(** A document in which the resolution of some property of a top-level
    schema reaches a node with neither "type" nor "$ref", or an array
    without "items", cannot be built: the parser raises, whatever the other
    schemas hold, and [write_models] writes nothing. *)
Theorem broken_document_fails (schemas : list (string * schema))
    (name : string) (s : schema) (pname : string) (p n : schema)
    (fh : string) :
  In (name, s) schemas -> In (pname, p) (properties_of s) ->
  visits p n -> broken_node n ->
  exists e,
    SchemaParser schemas = Raise e
    /\ write_models schemas fh = (fh, Some e).
Proof.
  intros Hs Hp Hv Hb.
  assert (Hfail : forall class_name defs, exists e,
             schema_as_string s class_name defs = Raise e).
  { intros class_name defs. unfold schema_as_string.
    destruct (parse_properties_fails (properties_of s) pname p Hp
                (visits_broken_raises p n Hv Hb) [] defs) as [e ->].
    eauto. }
  destruct (parse_schemas_fails schemas name s Hs Hfail []) as [e He].
  exists e. split; [exact He|].
  unfold write_models. unfold SchemaParser. now rewrite He.
Qed.

Lemma broken_document_fails_witness :
  exists e,
    SchemaParser
      [ ("Good", Node.object [("foo", Node.typed "string")]);
        ("Bad", Node.object
                  [("bar", Node.array (mkSchema (Some "array") None None
                                                None None None None))]) ]
    = Raise e
    /\ write_models
         [ ("Good", Node.object [("foo", Node.typed "string")]);
           ("Bad", Node.object
                     [("bar", Node.array (mkSchema (Some "array") None None
                                                   None None None None))]) ]
         "# models"
       = ("# models", Some e).
Proof.
  apply (broken_document_fails _ "Bad"
           (Node.object
              [("bar", Node.array (mkSchema (Some "array") None None
                                            None None None None))])
           "bar"
           (Node.array (mkSchema (Some "array") None None None None None None))
           (mkSchema (Some "array") None None None None None None)).
  - right. left. reflexivity.
  - left. reflexivity.
  - eapply visits_items; [reflexivity | reflexivity | constructor].
  - right. split; reflexivity.
Defined.

(** * Defaults in the class text *)

Lemma parse_properties_keeps (ps : list (string * schema)) :
  forall acc defs properties defs' q,
    parse_properties ps acc defs = Ok (properties, defs') ->
    In q acc -> In q properties.
Proof.
  induction ps as [|[pname p] rest IH];
    intros acc defs properties defs' q H Hin.
  - inversion H; now subst.
  - cbn [parse_properties] in H.
    destruct (parse_property p (valid_property_name pname) defs)
      as [[[prop_type pdefault] defs1]|e]; [|discriminate].
    apply (IH _ _ _ _ q H). apply in_or_app. now left.
Qed.

(** The field of a simple-type property is in the list the loop returns. *)
Lemma parse_properties_simple_field (ps : list (string * schema))
    (pname : string) (p : schema) (type_ py_type : string) :
  In (pname, p) ps ->
  type_of p = Ok type_ -> simple_types type_ = Some py_type ->
  forall acc defs properties defs',
    parse_properties ps acc defs = Ok (properties, defs') ->
    In (valid_property_name pname, py_type, render_default (s_default p))
       properties.
Proof.
  intros Hin Hty Hs.
  induction ps as [|[qname q] rest IH];
    intros acc defs properties defs' H; [contradiction|].
  cbn [parse_properties] in H.
  destruct Hin as [Heq|Hin].
  - inversion Heq; subst qname q.
    rewrite (parse_property_simple p _ defs type_ py_type Hty Hs) in H.
    apply (parse_properties_keeps _ _ _ _ _ _ H).
    apply in_or_app. right. now left.
  - destruct (parse_property q (valid_property_name qname) defs)
      as [[[prop_type pdefault] defs1]|e]; [|discriminate].
    exact (IH Hin _ _ _ _ H).
Qed.

Lemma join_contains (x : string) (l : list string) :
  In x l -> exists before after, PyStr.join "" l = before ++ x ++ after.
Proof.
  induction l as [|a [|b rest] IH]; intros Hin; [contradiction| |].
  - destruct Hin as [->|[]]. exists "", "". cbn.
    now rewrite StrFacts.app_empty_r.
  - change (PyStr.join "" (a :: b :: rest))
      with (a ++ "" ++ PyStr.join "" (b :: rest)).
    destruct Hin as [->|Hin].
    + exists "", (PyStr.join "" (b :: rest)). reflexivity.
    + destruct (IH Hin) as (before & after & ->).
      exists (a ++ before), after. cbn [append].
      now rewrite StrFacts.app_assoc.
Qed.

(** The class text holds the line of each of its properties. *)
Lemma class_text_contains_line (id_ : string) (description : option string)
    (properties : list property) (q : property) :
  In q properties ->
  exists before after,
    class_text id_ description properties
    = before ++ property_line q ++ after.
Proof.
  intros Hin. unfold class_text. cbv zeta.
  destruct (join_contains (property_line q) (map property_line properties))
    as (before & after & ->); [now apply in_map|].
  destruct properties as [|p rest]; [contradiction|].
  eexists. exists after. now rewrite <- StrFacts.app_assoc.
Qed.

(** For a property whose node is a simple type and declares a default that
    is a boolean, an integer or a string, the class text stored for the
    schema holds the line of the field with " = " and the [repr] of the
    default, the falsy values 0, False and the empty string included. *)
Theorem declared_default_is_emitted (s : schema)
    (class_name : option string) (defs defs' : model_defs)
    (pname : string) (p : schema) (type_ py_type : string) (v : pyvalue) :
  In (pname, p) (properties_of s) ->
  type_of p = Ok type_ -> simple_types type_ = Some py_type ->
  s_default p = Some v -> v <> PyNone ->
  schema_as_string s class_name defs = Ok defs' ->
  exists properties before after,
    Dict.get (class_id (s_id s) class_name properties) defs'
    = Some (before
              ++ (INDENT
                    ++ (valid_property_name pname ++ ": " ++ py_type
                          ++ " = " ++ PyRepr.repr v)
                    ++ PyStr.LF)
              ++ after).
Proof.
  intros Hin Hty Hs Hd Hv H. unfold schema_as_string in H.
  destruct (parse_properties (properties_of s) [] defs)
    as [[properties defs1]|e] eqn:E; [|discriminate].
  inversion H; subst defs'. exists properties.
  pose proof (parse_properties_simple_field _ pname p type_ py_type
                Hin Hty Hs _ _ _ _ E) as Hfield.
  rewrite Hd in Hfield.
  assert (Hr : render_default (Some v) = Some (PyRepr.repr v))
    by (destruct v; [congruence | reflexivity ..]).
  rewrite Hr in Hfield.
  destruct (class_text_contains_line
              (class_id (s_id s) class_name properties) (s_description s)
              properties _ Hfield) as (before & after & Htext).
  exists before, after. unfold emit_class.
  rewrite DictFacts.get_set_same. rewrite Htext. f_equal. f_equal. f_equal.
  unfold property_line.
  destruct (PyRepr.repr v) eqn:Er; [|reflexivity].
  now apply repr_not_empty in Er.
Qed.

Lemma declared_default_is_emitted_witness :
  exists properties before after,
    Dict.get (class_id None (Some "M") properties)
             [("M", class_text "M" None
                      [("flag", "bool", Some "False");
                       ("count", "int", Some "0")])]
    = Some (before
              ++ (INDENT
                    ++ (valid_property_name "count" ++ ": " ++ "int"
                          ++ " = " ++ PyRepr.repr (PyInt 0))
                    ++ PyStr.LF)
              ++ after).
Proof.
  apply (declared_default_is_emitted
           (Node.object
              [("flag", Node.typed_default "boolean" (PyBool false));
               ("count", Node.typed_default "integer" (PyInt 0))])
           (Some "M") [] _ "count"
           (Node.typed_default "integer" (PyInt 0)) "integer" "int"
           (PyInt 0)).
  - right. left. reflexivity.
  - reflexivity.
  - reflexivity.
  - reflexivity.
  - discriminate.
  - reflexivity.
Defined.
